(** * MaxConverter: the line parser and the table formatter

    A shallow embedding of [parse_line_to_fields] and [format_table] of
    [maxconverter.py], with the part of Python's [str] and [re] they call,
    of [extract_data] over the lines of a file, and of the handlers
    [_default_filename] and [on_extract] of the window, whose dialogs and
    files are the answers of a [world].

    - A Python [str] is a sequence of Unicode code points: [list N].
    - A [dict] with string keys and string values is a [gmap]; the empty
      dict is [∅] (the only falsy dict).
    - An exception ([KeyError], [ValueError], [IndexError]) is [None] in the
      option monad.
    - The Unicode table behind the regex class [\d] depends on the Python
      version; it is a parameter [isdecimal] of the development. *)

From Stdlib Require Import String Ascii.
From stdpp Require Import numbers option gmap list.

Abbreviation char := N (only parsing).
Abbreviation str := (list N) (only parsing).
Abbreviation dict := (gmap (list N) (list N)) (only parsing).

(** ** Literals *)

(** The code points of an ASCII literal. *)
Fixpoint py (s : string) : str :=
  match s with
  | EmptyString => []
  | String a s' => N_of_ascii a :: py s'
  end.

Definition space : char := 0x20%N.
Definition newline : char := 0x0A%N.
Definition comma : char := 0x2C%N.
Definition hash : char := 0x23%N.
Definition dot : char := 0x2E%N.

(** ** Python's [str] *)

Module PyStr.

(** [Py_UNICODE_ISSPACE]: the test behind [str.strip()], [str.isspace()]
    and the regex class [\s] on [str] patterns. *)
Definition isspace (c : char) : bool :=
  ((0x09 <=? c) && (c <=? 0x0D) || (0x1C <=? c) && (c <=? 0x20)
   || (c =? 0x85) || (c =? 0xA0) || (c =? 0x1680)
   || (0x2000 <=? c) && (c <=? 0x200A)
   || (c =? 0x2028) || (c =? 0x2029) || (c =? 0x202F) || (c =? 0x205F)
   || (c =? 0x3000))%N.

Fixpoint lstrip (s : str) : str :=
  match s with
  | [] => []
  | c :: s' => if isspace c then lstrip s' else s
  end.

Definition rstrip (s : str) : str := reverse (lstrip (reverse s)).

(** [s.strip()] *)
Definition strip (s : str) : str := rstrip (lstrip s).

(** [s.startswith(c)] for a one-character prefix. *)
Definition startswith (c : char) (s : str) : bool :=
  match s with
  | [] => false
  | c' :: _ => (c' =? c)%N
  end.

(** [s.split(sep)] for a one-character separator: the text between the
    occurrences of [sep], empty pieces included; never the empty list. *)
Fixpoint split (sep : char) (s : str) : list str :=
  match s with
  | [] => [[]]
  | c :: s' =>
      if (c =? sep)%N then [] :: split sep s'
      else match split sep s' with
           | p :: ps => (c :: p) :: ps
           | [] => [[c]]
           end
  end.

(** [sep.join(l)] for a one-character separator. *)
Fixpoint join (sep : char) (l : list str) : str :=
  match l with
  | [] => []
  | [x] => x
  | x :: l' => x ++ sep :: join sep l'
  end.

(** [s.ljust(w)]: pads with spaces on the right up to [w] characters; a
    string that is already [w] long or longer is returned as it is. *)
Definition ljust (s : str) (w : nat) : str :=
  s ++ replicate (w - length s) space.

(** [s.rstrip] of the space character only. *)
Fixpoint rstrip_spaces (s : str) : str :=
  match s with
  | [] => []
  | c :: s' =>
      match rstrip_spaces s' with
      | [] => if (c =? space)%N then [] else [c]
      | t => c :: t
      end
  end.

(** [max(l)]: a [ValueError] on the empty list. *)
Definition max (l : list nat) : option nat :=
  match l with
  | [] => None
  | n :: l' => Some (foldl Nat.max n l')
  end.

End PyStr.

(** ** Python's [re] *)

Module Re.

(** The patterns of the program: character classes, sequence, alternation,
    the greedy [?], and the greedy [*] and [+] of a class. *)
Inductive regex : Type :=
  | Cls (p : char → bool)
  | Seq (r1 r2 : regex)
  | Alt (r1 r2 : regex)
  | Opt (r : regex)
  | Star (p : char → bool)
  | Plus (p : char → bool).

(** Greedy repetition of a class with backtracking: the longest run is
    tried first, then shorter ones, until the continuation [k] accepts. *)
Fixpoint star (p : char → bool) (s : str) (k : str → option str) : option str :=
  match s with
  | [] => k []
  | c :: s' =>
      if p c then
        match star p s' k with
        | Some rest => Some rest
        | None => k s
        end
      else k s
  end.

(** The backtracking matcher: [run r s k] matches [r] at the start of [s]
    and hands what is left to [k]; alternatives are tried in the order of
    the engine (left branch first, the optional part first). The result is
    the text left after the whole match. *)
Fixpoint run (r : regex) (s : str) (k : str → option str) : option str :=
  match r with
  | Cls p =>
      match s with
      | c :: s' => if p c then k s' else None
      | [] => None
      end
  | Seq r1 r2 => run r1 s (λ s1, run r2 s1 k)
  | Alt r1 r2 =>
      match run r1 s k with
      | Some rest => Some rest
      | None => run r2 s k
      end
  | Opt r1 =>
      match run r1 s k with
      | Some rest => Some rest
      | None => k s
      end
  | Star p => star p s k
  | Plus p =>
      match s with
      | c :: s' => if p c then star p s' k else None
      | [] => None
      end
  end.

(** [r.match(s)]: the matched text and the text after it. *)
Definition match_ (r : regex) (s : str) : option (str * str) :=
  rest ← run r s Some;
  Some (take (length s - length rest) s, rest).

(** One left-to-right pass over [s], as [findall] and [split] make it: the
    text skipped before each match together with the match, and the text
    after the last match. The search resumes where a match ended, or one
    character further where there is none. Both patterns of the program
    match at least one character (a digit, a whitespace character); an
    empty match counts as no match here. *)
Definition push (c : char) (res : list (str * str) * str) : list (str * str) * str :=
  match res with
  | ([], tl) => ([], c :: tl)
  | ((gap, m) :: segs, tl) => ((c :: gap, m) :: segs, tl)
  end.

Fixpoint scan (r : regex) (fuel : nat) (s : str) : list (str * str) * str :=
  match fuel, s with
  | 0, _ => ([], s)
  | _, [] => ([], [])
  | S fuel', c :: s' =>
      match match_ r s with
      | Some (c0 :: m, rest) =>
          let '(segs, tl) := scan r fuel' rest in (([], c0 :: m) :: segs, tl)
      | _ => push c (scan r fuel' s')
      end
  end.

(** [r.findall(s)] for a pattern without capturing groups: the matches. *)
Definition findall (r : regex) (s : str) : list str :=
  (scan r (length s) s).1.*2.

(** [re.split(r, s)]: the text between the matches, and after the last. *)
Definition split (r : regex) (s : str) : list str :=
  let '(segs, tl) := scan r (length s) s in segs.*1 ++ [tl].

(** The language of a pattern. *)
Inductive matches : regex → str → Prop :=
  | matches_cls p c : p c = true → matches (Cls p) [c]
  | matches_seq r1 r2 a b :
      matches r1 a → matches r2 b → matches (Seq r1 r2) (a ++ b)
  | matches_alt_l r1 r2 a : matches r1 a → matches (Alt r1 r2) a
  | matches_alt_r r1 r2 a : matches r2 a → matches (Alt r1 r2) a
  | matches_opt_none r : matches (Opt r) []
  | matches_opt_some r a : matches r a → matches (Opt r) a
  | matches_star p a : Forall (λ c, p c = true) a → matches (Star p) a
  | matches_plus p a :
      a ≠ [] → Forall (λ c, p c = true) a → matches (Plus p) a.

(** A class given by its members, as in [[+-]]. *)
Definition one_of (l : str) (c : char) : bool := bool_decide (c ∈ l).

End Re.

(** ** The program *)

Section Program.

(** [Py_UNICODE_ISDECIMAL], the regex class [\d]. *)
Context (isdecimal : char → bool).

(** [FLOAT_TOKEN], written out as [re.VERBOSE] would allow:
<<
      [+-]?                      optional sign
      (?: \d+ (?: \. \d* )?      digits, optional fraction
        | \. \d+ )               or a fraction with a leading dot
      (?: [eE] [+-]? \d+ )?      optional exponent
>>
    All groups are non-capturing, so [findall] returns whole matches. *)
Definition FLOAT_TOKEN : Re.regex :=
  Re.Seq (Re.Opt (Re.Cls (Re.one_of (py "+-"))))
    (Re.Seq
       (Re.Alt
          (Re.Seq (Re.Plus isdecimal)
             (Re.Opt (Re.Seq (Re.Cls (Re.one_of (py "."))) (Re.Star isdecimal))))
          (Re.Seq (Re.Cls (Re.one_of (py "."))) (Re.Plus isdecimal)))
       (Re.Opt
          (Re.Seq (Re.Cls (Re.one_of (py "eE")))
             (Re.Seq (Re.Opt (Re.Cls (Re.one_of (py "+-")))) (Re.Plus isdecimal))))).

(** The pattern [\s+]. *)
Definition WHITESPACE : Re.regex := Re.Plus PyStr.isspace.

Definition NAME : str := py "NAME".
Definition HJD : str := py "HJD".
Definition MAG : str := py "MAG".
Definition MAG_ERR : str := py "MAG_ERR".
Definition FILTER : str := py "FILTER".

Definition ALL_COLUMNS : list str := [NAME; HJD; MAG; MAG_ERR; FILTER].
Definition DEFAULT_COLUMNS : list str := [HJD; MAG; MAG_ERR].

(** A dict display [{k1: v1, ..., kn: vn}]: the entries are inserted from
    left to right. *)
Definition dict_literal (l : list (str * str)) : dict :=
  foldl (λ d kv, <[kv.1 := kv.2]> d) ∅ l.

(** The dict that the comma branch and the whitespace branch both return;
    [parts[i]] raises [IndexError] out of range. *)
Definition positional (parts : list str) : option dict :=
  p0 ← parts !! 0; p1 ← parts !! 1; p2 ← parts !! 2;
  p3 ← parts !! 3; p4 ← parts !! 4;
  Some (dict_literal [(NAME, PyStr.strip p0); (HJD, PyStr.strip p1);
                      (MAG, PyStr.strip p2); (MAG_ERR, PyStr.strip p3);
                      (FILTER, PyStr.strip p4)]).

Definition parse_line_to_fields (line : str) : option dict :=
  let s := PyStr.strip line in
  if bool_decide (s = []) || PyStr.startswith hash s then Some ∅
  else
    let parts := PyStr.split comma s in
    if 5 <=? length parts then positional parts
    else
      let parts := Re.split WHITESPACE s in
      if 5 <=? length parts then positional parts
      else
        let nums := Re.findall FLOAT_TOKEN s in
        if 3 <=? length nums then
          n0 ← nums !! 0; n1 ← nums !! 1; n2 ← nums !! 2;
          Some (dict_literal [(NAME, []); (HJD, n0); (MAG, n1);
                              (MAG_ERR, n2); (FILTER, [])])
        else Some ∅.

(** [extract_data] over the lines of the file: the non-empty dicts. *)
Fixpoint extract_data (lines : list str) : option (list dict) :=
  match lines with
  | [] => Some []
  | raw :: lines' =>
      row ← parse_line_to_fields raw;
      out ← extract_data lines';
      Some (if bool_decide (row = ∅) then out else row :: out)
  end.

End Program.

(** [str(r.get(col, empty))] with the empty string as default; the values
    of a record are strings, which [str] returns as they are. *)
Definition get (r : dict) (col : str) : str := default [] (r !! col).

(** The first loop of [format_table]: [widths[col] = max_len + 3]. *)
Fixpoint widths_loop (rows : list dict) (cols : list str)
    (widths : gmap str nat) : option (gmap str nat) :=
  match cols with
  | [] => Some widths
  | col :: cols' =>
      max_len ← PyStr.max (((λ r, length (get r col)) <$> rows) ++ [length col]);
      widths_loop rows cols' (<[col := max_len + 3]> widths)
  end.

(** The concatenation of [cell(col).ljust(widths[col])] over
    [selected_cols]; [widths[col]] raises [KeyError] on a missing key. *)
Definition render (widths : gmap str nat) (cols : list str)
    (cell : str → str) : option str :=
  @concat char <$> mapM (λ col, w ← widths !! col; Some (PyStr.ljust (cell col) w)) cols.

(** The list [[header] + lines] that [format_table] joins. *)
Definition format_lines (rows : list dict) (selected_cols : list str) :
    option (list str) :=
  widths ← widths_loop rows selected_cols ∅;
  header ← render widths selected_cols id;
  lines ← mapM (λ r, render widths selected_cols (get r)) rows;
  Some (header :: lines).

Definition format_table (rows : list dict) (selected_cols : list str) :
    option str :=
  PyStr.join newline <$> format_lines rows selected_cols.

(** The ASCII digits: what every version of the [\d] table holds below
    U+0080. *)
Definition ascii_digit (c : char) : bool := ((0x30 <=? c) && (c <=? 0x39))%N.

(** ** The window *)

Definition underscore : char := 0x5F%N.

(** [s.replace(old, new)] for one-character strings. *)
Definition str_replace (old new : char) (s : str) : str :=
  (λ c, if (c =? old)%N then new else c) <$> s.

(** The truth value of [None] or of a string. *)
Definition truthy (o : option str) : bool :=
  match o with
  | None => false
  | Some s => bool_decide (s ≠ [])
  end.

(** What the handlers read of the window: the text of the three line
    edits and the state of the check boxes, which [__init__] stores in a
    dict keyed by the names of [ALL_COLUMNS], in that order. *)
Record window : Type := {
  input_edit : str;
  checks : str → bool;
  mpc_edit : str;
  aavso_edit : str
}.

(** What the world answers to the handlers. *)
Record world : Type := {
  upper : str → str;               (* [str.upper] *)
  stem : str → str;                (* [Path(p).stem] *)
  today : str;                     (* [date.today().strftime("%Y%m%d")] *)
  isfile : str → bool;             (* [os.path.isfile] *)
  read : str → option (list str);  (* the lines of the file, [None] when
                                      opening or reading raises *)
  desktop_dir : str;               (* [desktop_dir()] *)
  path_join : str → str → str;     (* [str(Path(a) / b)] *)
  save_dialog : str → str;         (* [getSaveFileName] with the default
                                      path: the path chosen, empty when
                                      the dialog is dismissed *)
  write : str → str → bool         (* writing the text to the path, [false]
                                      when it raises *)
}.

(** How [on_extract] ends. *)
Inductive outcome : Type :=
  | warning (msg : str)
  | critical_reading
  | critical_writing
  | dismissed
  | saved (out_path text : str)
  | raised.

Section Window.
Context (isdecimal : char → bool) (w : world).

(** The file name is [base_date_suffix.txt], or [base_date.txt]. *)
Definition _default_filename (self : window) (in_path : str) : str :=
  let in_stem := stem w in_path in
  let base := str_replace space underscore (upper w in_stem) in
  let date_str := today w in
  let suffix :=
    if bool_decide (PyStr.strip (aavso_edit self) ≠ []) then Some (py "AAVSO")
    else if bool_decide (PyStr.strip (mpc_edit self) ≠ []) then Some (py "MPC")
    else None in
  if truthy suffix
  then base ++ py "_" ++ date_str ++ py "_" ++ default [] suffix ++ py ".txt"
  else base ++ py "_" ++ date_str ++ py ".txt".

(** [on_extract]: the message boxes are the outcomes; an exception of
    [extract_data] is caught by the handler, one of [format_table] is not. *)
Definition on_extract (self : window) : outcome :=
  let in_path := PyStr.strip (input_edit self) in
  if negb (isfile w in_path) then warning (py "Please select a valid file.")
  else
    match read w in_path with
    | None => critical_reading
    | Some lines =>
        match extract_data isdecimal lines with
        | None => critical_reading
        | Some rows =>
            if bool_decide (rows = []) then warning (py "No data found in file.")
            else
              let selected_cols := filter (λ c, checks self c = true) ALL_COLUMNS in
              if bool_decide (selected_cols = [])
              then warning (py "Select at least one column.")
              else
                match format_table rows selected_cols with
                | None => raised
                | Some text_out =>
                    let default_path :=
                      path_join w (desktop_dir w) (_default_filename self in_path) in
                    let out_path := save_dialog w default_path in
                    if bool_decide (out_path = []) then dismissed
                    else if write w out_path text_out
                         then saved out_path text_out
                         else critical_writing
                end
        end
    end.

End Window.

(** A world for the examples: ASCII letters are upper-cased, the stem of
    a path is the path, and it is the third of November 2026. *)
Definition ascii_upper (s : str) : str :=
  (λ c, if (0x61 <=? c)%N && (c <=? 0x7A)%N then (c - 0x20)%N else c) <$> s.

Definition sample_world : world := {|
  upper := ascii_upper;
  stem := id;
  today := py "20261103";
  isfile := λ _, true;
  read := λ _, Some [py "# log"; py "V1,2459000.5,12.3,0.05,R"];
  desktop_dir := py "/home/user/Desktop";
  path_join := λ a b, a ++ py "/" ++ b;
  save_dialog := id;
  write := λ _ _, true
|}.

Definition sample_window : window := {|
  input_edit := py " my log ";
  checks := λ c, bool_decide (c ∈ DEFAULT_COLUMNS);
  mpc_edit := py "G96";
  aavso_edit := py "  "
|}.

(** * Definitions of the specification *)

(** A string that neither starts nor ends with whitespace. *)
Definition trimmed (s : str) : Prop :=
  (∀ c, head s = Some c → PyStr.isspace c = false) ∧
  (∀ c, last s = Some c → PyStr.isspace c = false).

(** The text that a pass has covered up to its last match. *)
Definition flat (segs : list (str * str)) : str :=
  concat ((λ gm, gm.1 ++ gm.2) <$> segs).

(** No word of the pattern starts inside [g], when [after] follows [g]. *)
Definition nothing_starts (r : Re.regex) (g after : str) : Prop :=
  ∀ g1 g2 t u, g = g1 ++ g2 → g2 ≠ [] → g2 ++ after = t ++ u → ¬ Re.matches r t.

(** The matches of a pass are the leftmost ones: no word of the pattern
    starts in the text skipped before a match, nor after the last match. *)
Fixpoint leftmost (r : Re.regex) (segs : list (str * str)) (tl : str) : Prop :=
  match segs with
  | [] => nothing_starts r tl []
  | gm :: segs' =>
      nothing_starts r gm.1 (gm.2 ++ flat segs' ++ tl) ∧ leftmost r segs' tl
  end.

Section Grammar.
Context (isdecimal : char → bool).

(** The token grammar in the words of the specification: an optional
    sign; digits with an optional fractional part, or a fractional part
    with a leading dot; an optional exponent ([e] or [E], an optional sign,
    digits). *)
Definition digits (t : str) : Prop :=
  t ≠ [] ∧ Forall (λ c, isdecimal c = true) t.
Definition opt_sign (t : str) : Prop := t = [] ∨ t = py "+" ∨ t = py "-".
Definition opt_fraction (t : str) : Prop :=
  t = [] ∨ ∃ d, Forall (λ c, isdecimal c = true) d ∧ t = dot :: d.
Definition mantissa (t : str) : Prop :=
  (∃ i f, digits i ∧ opt_fraction f ∧ t = i ++ f) ∨
  (∃ d, digits d ∧ t = dot :: d).
Definition opt_exponent (t : str) : Prop :=
  t = [] ∨
  ∃ e sg d, ([e] = py "e" ∨ [e] = py "E") ∧ opt_sign sg ∧ digits d ∧
    t = e :: sg ++ d.
Definition float_token (t : str) : Prop :=
  ∃ sg m e, opt_sign sg ∧ mantissa m ∧ opt_exponent e ∧ t = sg ++ m ++ e.

(** No token of the grammar starts inside [g], when [after] follows [g]. *)
Definition token_free (g after : str) : Prop :=
  ∀ g1 g2 t u, g = g1 ++ g2 → g2 ≠ [] → g2 ++ after = t ++ u → ¬ float_token t.

End Grammar.

(** The width of a column in the words of the specification: the longest
    of the rendered values and of the column name, plus 3. *)
Definition column_width (rows : list dict) (col : str) : nat :=
  (max_list_with (λ r, length (get r col)) rows `max` length col) + 3.

(** A line of the table in the words of the specification: the cells,
    each left-justified to the width of its column, one after the other. *)
Definition table_line (rows : list dict) (cols : list str)
    (cell : str → str) : str :=
  concat ((λ col, PyStr.ljust (cell col) (column_width rows col)) <$> cols).

(** A line cut at the column boundaries. *)
Fixpoint slices (ws : list nat) (s : str) : list str :=
  match ws with
  | [] => []
  | w :: ws' => take w s :: slices ws' (drop w s)
  end.

Definition no_trailing_space (s : str) : Prop :=
  ∀ c, last s = Some c → c ≠ space.

(** The claim C7 as it is worded: cutting a line at the computed column
    widths and trimming the trailing spaces of each slice gives exactly
    the column names (header), or the values of the record. *)
Definition slices_recover_exactly (rows : list dict) (cols : list str) : Prop :=
  ∃ widths ws header lines,
    widths_loop rows cols ∅ = Some widths ∧
    Forall2 (λ col w, widths !! col = Some w) cols ws ∧
    format_lines rows cols = Some (header :: lines) ∧
    PyStr.rstrip_spaces <$> slices ws header = cols ∧
    Forall2 (λ r line, PyStr.rstrip_spaces <$> slices ws line = get r <$> cols)
            rows lines.

(** [v] stands in [s] as it is: a contiguous piece of [s]. *)
Definition piece_of (v s : str) : Prop := ∃ a b, s = a ++ v ++ b.

(** The pieces that [re.split] returns for a pass. *)
Definition pieces (res : list (str * str) * str) : list str :=
  res.1.*1 ++ [res.2].

(** * Properties of the string operations *)

Section PyStr_facts.
Import PyStr.

Example strip_ex : strip (py "  a b" ++ [0x09; 0x20]%N) = py "a b".
Proof. reflexivity. Qed.
Example split_ex : split comma (py "a,,b,") = [py "a"; []; py "b"; []].
Proof. reflexivity. Qed.
Example join_ex : join newline [py "a"; []; py "b"] = [97; 10; 10; 98]%N.
Proof. reflexivity. Qed.
Example ljust_ex : ljust (py "ab") 5 = py "ab   ".
Proof. reflexivity. Qed.


Lemma lstrip_split s :
  ∃ ws, s = ws ++ lstrip s ∧ Forall (λ c, isspace c = true) ws.
Proof.
  induction s as [|c s [ws [Hs Hws]]]; simpl.
  - by exists [].
  - destruct (isspace c) eqn:Hc.
    + exists (c :: ws). split; [simpl; congruence | by constructor].
    + by exists [].
Qed.

Lemma lstrip_head s c : head (lstrip s) = Some c → isspace c = false.
Proof.
  induction s as [|c' s IH]; simpl; [done|].
  destruct (isspace c') eqn:Hc; [done|]. simpl. congruence.
Qed.

Lemma lstrip_id s :
  (∀ c, head s = Some c → isspace c = false) → lstrip s = s.
Proof. destruct s as [|c s]; simpl; [done|]. intros H. by rewrite (H c). Qed.

Lemma lstrip_spaces ws s :
  Forall (λ c, isspace c = true) ws → lstrip (ws ++ s) = lstrip s.
Proof. induction 1 as [|c ws Hc _ IH]; simpl; [done|]. by rewrite Hc. Qed.

Lemma rstrip_split s :
  ∃ ws, s = rstrip s ++ ws ∧ Forall (λ c, isspace c = true) ws.
Proof.
  unfold rstrip. destruct (lstrip_split (reverse s)) as [ws [Hs Hws]].
  exists (reverse ws). split.
  - rewrite <-reverse_app, <-Hs. by rewrite reverse_involutive.
  - by apply Forall_reverse.
Qed.

Lemma rstrip_last s c : last (rstrip s) = Some c → isspace c = false.
Proof. unfold rstrip. rewrite last_reverse. apply lstrip_head. Qed.

Lemma rstrip_head s c :
  head (rstrip s) = Some c → head s = Some c.
Proof.
  destruct (rstrip_split s) as [ws [Hs _]]. intros H. rewrite Hs.
  destruct (rstrip s); [done|]. done.
Qed.

Lemma rstrip_id s :
  (∀ c, last s = Some c → isspace c = false) → rstrip s = s.
Proof.
  intros H. unfold rstrip. rewrite lstrip_id.
  - apply reverse_involutive.
  - intros c. rewrite head_reverse. apply H.
Qed.

Lemma strip_trimmed s : trimmed (strip s).
Proof.
  split; intros c Hc.
  - apply (lstrip_head s). by apply rstrip_head.
  - by apply (rstrip_last (lstrip s)).
Qed.

Lemma strip_id s : trimmed s → strip s = s.
Proof. intros [H1 H2]. unfold strip. rewrite lstrip_id by done. by apply rstrip_id. Qed.

Lemma trimmed_no_space s :
  Forall (λ c, isspace c = false) s → trimmed s.
Proof.
  intros H. split; intros c Hc.
  - destruct s; simplify_eq/=. by inversion H.
  - apply last_Some_elem_of in Hc. by apply (proj1 (Forall_forall _ _) H).
Qed.

Lemma strip_spaces s : Forall (λ c, isspace c = true) s → strip s = [].
Proof.
  intros H. unfold strip.
  rewrite <-(app_nil_r s), lstrip_spaces by done. done.
Qed.

Lemma strip_comment ws rest :
  Forall (λ c, isspace c = true) ws →
  startswith hash (strip (ws ++ hash :: rest)) = true.
Proof.
  intros H. unfold strip. rewrite lstrip_spaces by done. simpl.
  destruct (rstrip_split (hash :: rest)) as [ws' [Hs Hws']].
  destruct (rstrip (hash :: rest)) as [|c t] eqn:E.
  - simpl in Hs. subst ws'. by inversion Hws'.
  - by simplify_eq/=.
Qed.

Lemma split_nonempty sep s : split sep s ≠ [].
Proof.
  destruct s as [|c s]; simpl; [done|].
  destruct (c =? sep)%N; [done|]. by destruct (split sep s).
Qed.

Lemma join_split sep s : join sep (split sep s) = s.
Proof.
  induction s as [|c s IH]; simpl; [done|].
  destruct (N.eqb_spec c sep) as [->|Hne].
  - pose proof (split_nonempty sep s).
    destruct (split sep s) as [|p ps] eqn:E; [done|].
    change (join sep ([] :: p :: ps)) with (sep :: join sep (p :: ps)).
    by rewrite IH.
  - destruct (split sep s) as [|p ps] eqn:E; [by destruct (split_nonempty sep s)|].
    rewrite <-IH. by destruct ps.
Qed.

Lemma split_no_sep sep s : Forall (λ p, sep ∉ p) (split sep s).
Proof.
  induction s as [|c s IH]; simpl.
  - repeat constructor. by intros ?%elem_of_nil.
  - destruct (N.eqb_spec c sep) as [->|Hne].
    + constructor; [by intros ?%elem_of_nil | done].
    + destruct (split sep s) as [|p ps] eqn:E; [by destruct (split_nonempty sep s)|].
      inversion_clear IH. constructor; [|done].
      intros [?|?]%elem_of_cons; [congruence | done].
Qed.

Lemma split_join sep l :
  l ≠ [] → Forall (λ p, sep ∉ p) l → split sep (join sep l) = l.
Proof.
  intros Hl H. induction H as [|p l Hp Hall IH]; [done|].
  assert (∀ t, split sep (p ++ t) =
               match split sep t with q :: qs => (p ++ q) :: qs | [] => [p] end) as Happ.
  { intros t. clear -Hp. induction p as [|c p IHp]; simpl.
    - destruct (split sep t) eqn:E; [by destruct (split_nonempty sep t)|done].
    - destruct (N.eqb_spec c sep) as [->|Hne]; [by destruct Hp; left|].
      rewrite IHp by (intros ?; apply Hp; by right).
      by destruct (split sep t). }
  destruct l as [|q l].
  - simpl. rewrite <-(app_nil_r p) at 1. rewrite Happ. simpl. by rewrite app_nil_r.
  - change (join sep (p :: q :: l)) with (p ++ sep :: join sep (q :: l)).
    rewrite Happ. cbn [split]. rewrite N.eqb_refl, IH by done. by rewrite app_nil_r.
Qed.

Lemma length_ljust s w : length s ≤ w → length (ljust s w) = w.
Proof. intros H. unfold ljust. rewrite length_app, length_replicate. lia. Qed.

Lemma ljust_short s w : w ≤ length s → ljust s w = s.
Proof.
  intros H. unfold ljust. replace (w - length s) with 0 by lia.
  apply app_nil_r.
Qed.

Lemma rstrip_spaces_pad s n :
  rstrip_spaces (s ++ replicate n space) = rstrip_spaces s.
Proof.
  induction s as [|c s IH]; simpl.
  - induction n as [|n IHn]; simpl; [done|]. by rewrite IHn.
  - by rewrite IH.
Qed.

Lemma rstrip_spaces_ljust s w : rstrip_spaces (ljust s w) = rstrip_spaces s.
Proof. apply rstrip_spaces_pad. Qed.

Lemma rstrip_spaces_id s :
  (∀ c, last s = Some c → c ≠ space) → rstrip_spaces s = s.
Proof.
  induction s as [|c s IH]; simpl; [done|]. intros H.
  destruct s as [|c' s].
  - simpl. destruct (N.eqb_spec c space) as [->|]; [|done].
    by destruct (H space).
  - rewrite IH by (intros d Hd; by apply H). done.
Qed.

Lemma rstrip_spaces_last s c : last (rstrip_spaces s) = Some c → c ≠ space.
Proof.
  revert c. induction s as [|c' s IH]; simpl; [done|]. intros c.
  destruct (rstrip_spaces s) as [|d t] eqn:E.
  - destruct (N.eqb_spec c' space); simpl; [done | congruence].
  - intros H. apply IH. by rewrite last_cons_cons in H.
Qed.

(** [max] returns an upper bound of the list that is one of its elements. *)
Lemma foldl_max_spec (l : list nat) (a : nat) :
  (foldl Nat.max a l = a ∨ foldl Nat.max a l ∈ l) ∧
  a ≤ foldl Nat.max a l ∧ Forall (λ n, n ≤ foldl Nat.max a l) l.
Proof.
  revert a. induction l as [|n l IH]; intros a; simpl.
  - split; [by left | split; [lia | constructor]].
  - destruct (IH (a `max` n)) as [Hm [Hle Hall]].
    split; [|split; [lia | constructor; [lia | done]]].
    destruct Hm as [Hm|Hm]; [|right; by right].
    rewrite Hm. destruct (Nat.max_spec a n) as [[? ->]|[? ->]].
    + right. by left.
    + by left.
Qed.

Lemma max_spec (l : list nat) :
  l ≠ [] → ∃ m, max l = Some m ∧ m ∈ l ∧ Forall (λ n, n ≤ m) l.
Proof.
  destruct l as [|a l]; [done|]. intros _. simpl.
  destruct (foldl_max_spec l a) as [Hm [Hle Hall]].
  eexists. split; [done|]. split.
  - destruct Hm as [->|Hm]; [by left | by right].
  - by constructor.
Qed.

End PyStr_facts.

(** * Properties of the regex engine *)

Section Re_facts.
Import Re.

Lemma star_sound p s k res :
  star p s k = Some res →
  ∃ m s1, s = m ++ s1 ∧ Forall (λ c, p c = true) m ∧ k s1 = Some res.
Proof.
  induction s as [|c s IH]; simpl.
  - intros H. by exists [], [].
  - destruct (p c) eqn:Hc; [|intros H; by exists [], (c :: s)].
    destruct (star p s k) as [res'|] eqn:E.
    + intros [= ->]. destruct IH as (m & s1 & -> & Hm & Hk); [done|].
      exists (c :: m), s1. split; [done|]. split; [by constructor | done].
    + intros H. by exists [], (c :: s).
Qed.

(** What the matcher accepts is in the language of the pattern, and the
    continuation ran on the text after it. *)
Lemma run_sound r s k res :
  run r s k = Some res →
  ∃ m s1, s = m ++ s1 ∧ matches r m ∧ k s1 = Some res.
Proof.
  revert s k res. induction r as [p|r1 IH1 r2 IH2|r1 IH1 r2 IH2|r IH|p|p];
    intros s k res; simpl.
  - destruct s as [|c s]; [done|]. destruct (p c) eqn:Hc; [|done].
    intros H. exists [c], s. split; [done|]. split; [by constructor | done].
  - intros (m1 & s1 & -> & Hm1 & (m2 & s2 & -> & Hm2 & Hk)%IH2)%IH1.
    exists (m1 ++ m2), s2. rewrite <-(assoc_L (++)).
    split; [done|]. split; [by constructor | done].
  - destruct (run r1 s k) as [res'|] eqn:E.
    + intros [= ->]. destruct (IH1 _ _ _ E) as (m & s1 & -> & Hm & Hk).
      exists m, s1. split; [done|]. split; [by apply matches_alt_l | done].
    + intros (m & s1 & -> & Hm & Hk)%IH2.
      exists m, s1. split; [done|]. split; [by apply matches_alt_r | done].
  - destruct (run r s k) as [res'|] eqn:E.
    + intros [= ->]. destruct (IH _ _ _ E) as (m & s1 & -> & Hm & Hk).
      exists m, s1. split; [done|]. split; [by apply matches_opt_some | done].
    + intros H. exists [], s. split; [done|]. split; [by constructor | done].
  - intros (m & s1 & -> & Hm & Hk)%star_sound.
    exists m, s1. split; [done|]. split; [by constructor | done].
  - destruct s as [|c s]; [done|]. destruct (p c) eqn:Hc; [|done].
    intros (m & s1 & -> & Hm & Hk)%star_sound.
    exists (c :: m), s1. split; [done|].
    split; [constructor; [done | by constructor] | done].
Qed.

Lemma star_complete p m s1 k res :
  Forall (λ c, p c = true) m → k s1 = Some res →
  is_Some (star p (m ++ s1) k).
Proof.
  intros Hm Hk. induction Hm as [|c m Hc _ IH]; simpl.
  - destruct s1 as [|c s1]; simpl; [by eexists|].
    destruct (p c); [|by eexists].
    destruct (star p s1 k); by eexists.
  - rewrite Hc. destruct IH as [res' ->]. by eexists.
Qed.

(** The matcher finds a match wherever the language of the pattern has a
    prefix that the continuation accepts. *)
Lemma run_complete r m s1 k res :
  matches r m → k s1 = Some res → is_Some (run r (m ++ s1) k).
Proof.
  intros Hm. revert s1 k res.
  induction Hm as [p c Hc|r1 r2 a b _ IH1 _ IH2|r1 r2 a _ IH|r1 r2 a _ IH
                   | r | r a _ IH | p a Ha | p a Hne Ha];
    intros s1 k res Hk; simpl.
  - rewrite Hc. by eexists.
  - rewrite <-(assoc_L (++)).
    destruct (IH2 s1 k res Hk) as [res2 H2]. by eapply IH1.
  - destruct (IH s1 k res Hk) as [res' ->]. by eexists.
  - destruct (run r1 (a ++ s1) k); [by eexists|]. by eapply IH.
  - destruct (run r s1 k); by eexists.
  - destruct (IH s1 k res Hk) as [res' ->]. by eexists.
  - by eapply star_complete.
  - destruct Ha as [|c a Hc Ha]; [done|]. simpl. rewrite Hc.
    by eapply star_complete.
Qed.

Lemma matches_cls p t : matches (Cls p) t ↔ ∃ c, t = [c] ∧ p c = true.
Proof.
  split; [inversion_clear 1; by eexists | intros (c & -> & H); by constructor].
Qed.

Lemma matches_seq r1 r2 t :
  matches (Seq r1 r2) t ↔ ∃ a b, t = a ++ b ∧ matches r1 a ∧ matches r2 b.
Proof.
  split; [inversion_clear 1; by eexists _, _ |].
  intros (a & b & -> & H1 & H2). by constructor.
Qed.

Lemma matches_alt r1 r2 t : matches (Alt r1 r2) t ↔ matches r1 t ∨ matches r2 t.
Proof.
  split; [inversion_clear 1; [by left | by right] |].
  intros [H|H]; [by apply matches_alt_l | by apply matches_alt_r].
Qed.

Lemma matches_opt r t : matches (Opt r) t ↔ t = [] ∨ matches r t.
Proof.
  split; [inversion_clear 1; [by left | by right] |].
  intros [->|H]; [by apply matches_opt_none | by apply matches_opt_some].
Qed.

Lemma matches_star_iff p t : matches (Star p) t ↔ Forall (λ c, p c = true) t.
Proof. split; [by inversion_clear 1 | by constructor]. Qed.

Lemma matches_plus_iff p t :
  matches (Plus p) t ↔ t ≠ [] ∧ Forall (λ c, p c = true) t.
Proof. split; [by inversion_clear 1 | intros [??]; by constructor]. Qed.

Lemma one_of_spec l c : one_of l c = true ↔ c ∈ l.
Proof. unfold one_of. apply bool_decide_eq_true. Qed.

Lemma match_sound r s m rest :
  match_ r s = Some (m, rest) → s = m ++ rest ∧ matches r m.
Proof.
  unfold match_. destruct (run r s Some) as [rest'|] eqn:E; [|done].
  simpl. intros [= <- <-].
  apply run_sound in E as (m & s1 & -> & Hm & [= ->]).
  rewrite length_app, Nat.add_sub, take_app_length. done.
Qed.

Lemma match_plus_hit p c s :
  p c = true → ∃ m rest, match_ (Plus p) (c :: s) = Some (c :: m, rest).
Proof.
  intros Hc. unfold match_. simpl. rewrite Hc.
  destruct (star_complete p [] s Some s) as [rest E]; [done..|].
  simpl in E. rewrite E. simpl.
  apply star_sound in E as (m & s1 & -> & _ & [= ->]).
  exists m, rest. rewrite length_app.
  replace (S (length m + length rest) - length rest) with (S (length m)) by lia.
  simpl. by rewrite take_app_length.
Qed.

Lemma match_plus_miss p c s : p c = false → match_ (Plus p) (c :: s) = None.
Proof. intros Hc. unfold match_. simpl. by rewrite Hc. Qed.

(** A pass cuts the text into skipped parts and matches, in order; each
    match is in the language of the pattern and is not empty. *)
Lemma scan_decompose r f s segs tl :
  scan r f s = (segs, tl) →
  s = flat segs ++ tl ∧ Forall (λ gm, matches r gm.2 ∧ gm.2 ≠ []) segs.
Proof.
  revert s segs tl. induction f as [|f IH]; intros s segs tl; simpl.
  - intros [= <- <-]. by split.
  - destruct s as [|c s]; [intros [= <- <-]; by split|].
    assert (push c (scan r f s) = (segs, tl) →
            c :: s = flat segs ++ tl ∧
            Forall (λ gm, matches r gm.2 ∧ gm.2 ≠ []) segs) as Hskip.
    { destruct (scan r f s) as [segs0 tl0] eqn:E.
      destruct (IH _ _ _ E) as [Hs Hall].
      destruct segs0 as [|[g m] segs0]; simpl; intros [= <- <-].
      - split; [by rewrite Hs | done].
      - split; [by rewrite Hs|]. by inversion_clear Hall; constructor. }
    destruct (match_ r (c :: s)) as [[[|c0 m] rest]|] eqn:Em; [done| |done].
    destruct (scan r f rest) as [segs0 tl0] eqn:E. intros [= <- <-].
    destruct (IH _ _ _ E) as [Hs Hall].
    apply match_sound in Em as [Hcs Hm]. split.
    + rewrite Hcs, Hs. unfold flat. simpl. by rewrite <-(assoc_L (++)).
    + by constructor.
Qed.

(** [length s] steps are enough for a pass over [s]. *)
Lemma scan_fuel r f1 f2 s :
  length s ≤ f1 → length s ≤ f2 → scan r f1 s = scan r f2 s.
Proof.
  revert f2 s. induction f1 as [|f1 IH]; intros f2 s H1 H2.
  - destruct s; [|simpl in *; lia]. by destruct f2.
  - destruct s as [|c s]; [by destruct f2|].
    destruct f2 as [|f2]; [simpl in *; lia|]. simpl in *.
    rewrite (IH f2 s) by lia.
    destruct (match_ r (c :: s)) as [[[|c0 m] rest]|] eqn:Em; [done| |done].
    apply match_sound in Em as [Hcs _].
    apply (f_equal length) in Hcs. rewrite length_app in Hcs. simpl in Hcs.
    by rewrite (IH f2 rest) by lia.
Qed.

(** The text between two matches of [p+] holds no character of [p]. *)
Lemma scan_plus_gaps p f s segs tl :
  length s ≤ f → scan (Plus p) f s = (segs, tl) →
  Forall (λ gm, Forall (λ c, p c = false) gm.1) segs ∧
  Forall (λ c, p c = false) tl.
Proof.
  revert s segs tl. induction f as [|f IH]; intros s segs tl Hf; simpl.
  - destruct s; [|simpl in *; lia]. intros [= <- <-]. by split.
  - destruct s as [|c s]; [intros [= <- <-]; by split|]. simpl in Hf.
    destruct (p c) eqn:Hc.
    + destruct (match_plus_hit p c s Hc) as (m & rest & Em). rewrite Em.
      apply match_sound in Em as [Hcs _].
      apply (f_equal length) in Hcs. rewrite length_app in Hcs. simpl in Hcs.
      destruct (scan (Plus p) f rest) as [segs0 tl0] eqn:E. intros [= <- <-].
      destruct (IH rest segs0 tl0) as [Hg Ht]; [lia | done |].
      split; [constructor; [by constructor | done] | done].
    + rewrite (match_plus_miss p c s Hc).
      destruct (scan (Plus p) f s) as [segs0 tl0] eqn:E.
      destruct (IH s segs0 tl0) as [Hg Ht]; [lia | done |].
      destruct segs0 as [|[g m] segs0]; simpl; intros [= <- <-].
      * split; [done | by constructor].
      * inversion_clear Hg. split; [|done].
        constructor; [by constructor | done].
Qed.

(** Where the matcher finds nothing, or the empty text only, no word of a
    pattern without the empty word starts. *)
Lemma match_miss r s :
  ¬ matches r [] →
  match match_ r s with Some (_ :: _, _) => False | _ => True end →
  ∀ t u, s = t ++ u → ¬ matches r t.
Proof.
  intros Hne Hmiss t u -> Ht.
  destruct (run_complete r t u Some u Ht eq_refl) as [rest Hrun].
  unfold match_ in Hmiss. rewrite Hrun in Hmiss. simpl in Hmiss.
  apply run_sound in Hrun as (m & s1 & Heq & Hm & [= ->]).
  rewrite Heq, length_app, Nat.add_sub, take_app_length in Hmiss.
  destruct m; [done | done].
Qed.

Lemma nothing_starts_cons r c g after :
  (∀ t u, c :: g ++ after = t ++ u → ¬ matches r t) →
  nothing_starts r g after → nothing_starts r (c :: g) after.
Proof.
  intros Hc Hg g1 g2 t u Heq Hne Htu.
  destruct g1 as [|c' g1]; simpl in Heq.
  - subst g2. by apply (Hc t u).
  - injection Heq as -> ->. by apply (Hg g1 g2 t u).
Qed.

Lemma scan_leftmost r f s segs tl :
  ¬ matches r [] → length s ≤ f → scan r f s = (segs, tl) → leftmost r segs tl.
Proof.
  intros Hne. revert s segs tl. induction f as [|f IH]; intros s segs tl Hf; simpl.
  - destruct s; [|simpl in *; lia]. intros [= <- <-].
    intros g1 g2 t u Heq Hg2. by destruct g1, g2.
  - destruct s as [|c s].
    { intros [= <- <-]. intros g1 g2 t u Heq Hg2. by destruct g1, g2. }
    simpl in Hf.
    assert (match match_ r (c :: s) with Some (_ :: _, _) => False | _ => True end →
            push c (scan r f s) = (segs, tl) → leftmost r segs tl) as Hskip.
    { intros Hmiss. destruct (scan r f s) as [segs0 tl0] eqn:E.
      pose proof (IH s segs0 tl0 ltac:(lia) E) as Hleft.
      apply scan_decompose in E as [Hs _].
      destruct segs0 as [|[g m] segs0]; simpl; intros [= <- <-]; simpl in *.
      - apply nothing_starts_cons; [|done]. intros t u Htu.
        apply (match_miss r (c :: s) Hne Hmiss t u).
        by rewrite <-Htu, app_nil_r, Hs.
      - destruct Hleft as [Hg Hleft]. split; [|done].
        apply nothing_starts_cons; [|done]. intros t u Htu.
        apply (match_miss r (c :: s) Hne Hmiss t u).
        rewrite <-Htu, Hs. unfold flat. simpl. by rewrite <-!(assoc_L (++)). }
    destruct (match_ r (c :: s)) as [[[|c0 m] rest]|] eqn:Em;
      [by apply Hskip | | by apply Hskip].
    apply match_sound in Em as [Hcs _].
    apply (f_equal length) in Hcs. rewrite length_app in Hcs. simpl in Hcs.
    destruct (scan r f rest) as [segs0 tl0] eqn:E. intros [= <- <-].
    split; [|by apply (IH rest); [lia|]].
    intros g1 g2 t u Heq Hg2. by destruct g1, g2.
Qed.

Lemma findall_scan r s :
  ∃ segs tl, scan r (length s) s = (segs, tl) ∧ findall r s = segs.*2.
Proof. unfold findall. destruct (scan r (length s) s) as [segs tl]. by exists segs, tl. Qed.

Lemma split_scan r s :
  ∃ segs tl, scan r (length s) s = (segs, tl) ∧ split r s = segs.*1 ++ [tl].
Proof. unfold split. destruct (scan r (length s) s) as [segs tl]. by exists segs, tl. Qed.

(** [findall] returns matches of the pattern that lie in the text one
    after the other, in the order in which they are returned. *)
Lemma findall_in_order r s :
  ∃ segs tl, findall r s = segs.*2 ∧ s = flat segs ++ tl ∧
    Forall (λ m, matches r m ∧ m ≠ []) (findall r s) ∧
    (¬ matches r [] → leftmost r segs tl).
Proof.
  destruct (findall_scan r s) as (segs & tl & E & ->).
  pose proof (scan_decompose _ _ _ _ _ E) as [Hs Hall]. exists segs, tl.
  split; [done|]. split; [done|]. split; [by apply Forall_fmap|].
  intros Hne. by eapply scan_leftmost.
Qed.

(** [re.split] on [p+]: no piece holds a character of [p]. *)
Lemma split_plus_pieces p s :
  Forall (Forall (λ c, p c = false)) (split (Plus p) s).
Proof.
  destruct (split_scan (Plus p) s) as (segs & tl & E & ->).
  apply scan_plus_gaps in E as [Hg Ht]; [|done].
  apply Forall_app. split; [by apply Forall_fmap | by constructor].
Qed.

(** [re.split] gives the text back when the matches are put back in. *)
Lemma split_covers r s :
  ∃ segs tl, split r s = segs.*1 ++ [tl] ∧ s = flat segs ++ tl.
Proof.
  destruct (split_scan r s) as (segs & tl & E & ->).
  apply scan_decompose in E as [Hs _]. by exists segs, tl.
Qed.

End Re_facts.

(** * The line parser *)

Section Parser.
Context (isdecimal : char → bool).
Import PyStr.

Lemma strip_spec s :
  ∃ l r, s = l ++ strip s ++ r ∧
    Forall (λ c, isspace c = true) l ∧ Forall (λ c, isspace c = true) r ∧
    trimmed (strip s).
Proof.
  destruct (lstrip_split s) as (l & Hl & Hws).
  destruct (rstrip_split (lstrip s)) as (r & Hr & Hws').
  exists l, r. split; [|by auto using strip_trimmed].
  unfold strip. by rewrite <-Hr.
Qed.

Lemma keys_distinct :
  NAME ≠ HJD ∧ NAME ≠ MAG ∧ NAME ≠ MAG_ERR ∧ NAME ≠ FILTER ∧
  HJD ≠ MAG ∧ HJD ≠ MAG_ERR ∧ HJD ≠ FILTER ∧ MAG ≠ MAG_ERR ∧
  MAG ≠ FILTER ∧ MAG_ERR ≠ FILTER.
Proof. repeat split; discriminate. Qed.

(** What a lookup in a record finds. *)
Lemma fields_lookup (name hjd mag mag_err filter : str) (k : str) :
  ({[NAME := name; HJD := hjd; MAG := mag; MAG_ERR := mag_err;
     FILTER := filter]} : dict) !! k
  = if decide (k = NAME) then Some name
    else if decide (k = HJD) then Some hjd
    else if decide (k = MAG) then Some mag
    else if decide (k = MAG_ERR) then Some mag_err
    else if decide (k = FILTER) then Some filter
    else None.
Proof.
  destruct keys_distinct as (?&?&?&?&?&?&?&?&?&?).
  repeat case_decide; by simplify_map_eq.
Qed.

(** The dict display of the parser, as a map. *)
Lemma dict_literal_fields (name hjd mag mag_err filter : str) :
  dict_literal [(NAME, name); (HJD, hjd); (MAG, mag); (MAG_ERR, mag_err);
                (FILTER, filter)]
  = {[NAME := name; HJD := hjd; MAG := mag; MAG_ERR := mag_err;
      FILTER := filter]}.
Proof.
  apply map_eq. intros k. rewrite fields_lookup.
  unfold dict_literal. simpl.
  destruct keys_distinct as (?&?&?&?&?&?&?&?&?&?).
  repeat case_decide; by simplify_map_eq.
Qed.

Lemma positional_fields p0 p1 p2 p3 p4 (extra : list str) :
  positional (p0 :: p1 :: p2 :: p3 :: p4 :: extra)
  = Some {[NAME := strip p0; HJD := strip p1; MAG := strip p2;
           MAG_ERR := strip p3; FILTER := strip p4]}.
Proof. unfold positional. simpl. by rewrite dict_literal_fields. Qed.

Lemma at_least_5 {A} (l : list A) :
  5 ≤ length l → ∃ a b c d e l', l = a :: b :: c :: d :: e :: l'.
Proof.
  destruct l as [|a [|b [|c [|d [|e l']]]]]; simpl; try lia.
  intros _. by exists a, b, c, d, e, l'.
Qed.

Lemma not_blank_or_comment (s : str) :
  s ≠ [] → startswith hash s = false →
  bool_decide (s = []) || startswith hash s = false.
Proof. intros H1 H2. by rewrite bool_decide_eq_false_2, H2. Qed.

(** The pieces of a whitespace split hold no whitespace: stripping one
    leaves it as it is. *)
Lemma whitespace_piece_strip s t :
  t ∈ Re.split WHITESPACE s → strip t = t.
Proof.
  intros Ht. apply strip_id, trimmed_no_space.
  by apply (proj1 (Forall_forall _ _) (split_plus_pieces isspace s)).
Qed.

(** C1: a line that, stripped, is neither empty nor a comment and that
    splits on commas into five parts or more is parsed into the record
    that maps NAME, HJD, MAG, MAG_ERR and FILTER to the parts 0 to 4, each
    stripped; the parts after the fifth play no role. *)
Theorem parse_comma_fields line p0 p1 p2 p3 p4 extra :
  strip line ≠ [] →
  startswith hash (strip line) = false →
  split comma (strip line) = p0 :: p1 :: p2 :: p3 :: p4 :: extra →
  parse_line_to_fields isdecimal line
  = Some {[NAME := strip p0; HJD := strip p1; MAG := strip p2;
           MAG_ERR := strip p3; FILTER := strip p4]}.
Proof.
  intros Hne Hhash Hparts. unfold parse_line_to_fields.
  rewrite not_blank_or_comment, Hparts by done.
  apply positional_fields.
Qed.

(** C2: a line that, stripped, is neither empty nor a comment, that has
    fewer than five comma-separated parts and that splits on runs of
    whitespace into five tokens or more is parsed into the record that maps
    NAME, HJD, MAG, MAG_ERR and FILTER to the tokens 0 to 4; the tokens
    after the fifth play no role. *)
Theorem parse_whitespace_fields line t0 t1 t2 t3 t4 extra :
  strip line ≠ [] →
  startswith hash (strip line) = false →
  length (split comma (strip line)) < 5 →
  Re.split WHITESPACE (strip line) = t0 :: t1 :: t2 :: t3 :: t4 :: extra →
  parse_line_to_fields isdecimal line
  = Some {[NAME := t0; HJD := t1; MAG := t2; MAG_ERR := t3; FILTER := t4]}.
Proof.
  intros Hne Hhash Hcomma Htokens. unfold parse_line_to_fields.
  rewrite not_blank_or_comment by done.
  rewrite (proj2 (Nat.leb_gt _ _) Hcomma), Htokens.
  rewrite positional_fields.
  rewrite !(whitespace_piece_strip (strip line)) by (rewrite Htokens; set_solver).
  done.
Qed.

(** C4: a line that is empty, that holds whitespace only, or whose first
    character after the leading whitespace is [#] is parsed into the empty
    dict, whatever the three branches would make of it. *)
Theorem parse_blank_or_comment line :
  line = [] ∨ Forall (λ c, isspace c = true) line ∨
  (∃ ws rest, Forall (λ c, isspace c = true) ws ∧ line = ws ++ hash :: rest) →
  parse_line_to_fields isdecimal line = Some ∅.
Proof.
  unfold parse_line_to_fields. intros [->|[Hws|(ws & rest & Hws & ->)]].
  - done.
  - by rewrite strip_spaces.
  - by rewrite strip_comment, orb_true_r.
Qed.

(** The parser is total and its result has one of three shapes. *)
Lemma parse_cases line :
  parse_line_to_fields isdecimal line = Some ∅ ∨
  (∃ p0 p1 p2 p3 p4,
     parse_line_to_fields isdecimal line
     = Some {[NAME := strip p0; HJD := strip p1; MAG := strip p2;
              MAG_ERR := strip p3; FILTER := strip p4]}) ∨
  (∃ n0 n1 n2 more,
     Re.findall (FLOAT_TOKEN isdecimal) (strip line) = n0 :: n1 :: n2 :: more ∧
     parse_line_to_fields isdecimal line
     = Some {[NAME := []; HJD := n0; MAG := n1; MAG_ERR := n2; FILTER := []]}).
Proof.
  unfold parse_line_to_fields.
  destruct (bool_decide (strip line = []) || startswith hash (strip line));
    [by left|].
  destruct (Nat.leb_spec 5 (length (split comma (strip line)))) as [H|_].
  { apply at_least_5 in H as (p0 & p1 & p2 & p3 & p4 & extra & ->).
    right; left. exists p0, p1, p2, p3, p4. apply positional_fields. }
  destruct (Nat.leb_spec 5 (length (Re.split WHITESPACE (strip line)))) as [H|_].
  { apply at_least_5 in H as (p0 & p1 & p2 & p3 & p4 & extra & ->).
    right; left. exists p0, p1, p2, p3, p4. apply positional_fields. }
  destruct (Re.findall (FLOAT_TOKEN isdecimal) (strip line))
    as [|n0 [|n1 [|n2 more]]] eqn:E; simpl; try by left.
  right; right. exists n0, n1, n2, more. by rewrite dict_literal_fields.
Qed.

(** C8: the parser returns a dict for every line, and a dict that is not
    empty has the keys HJD, MAG and MAG_ERR. *)
Theorem parse_record_keys line :
  ∃ d, parse_line_to_fields isdecimal line = Some d ∧
    (d ≠ ∅ → is_Some (d !! HJD) ∧ is_Some (d !! MAG) ∧ is_Some (d !! MAG_ERR)).
Proof.
  destruct (parse_cases line)
    as [->|[(p0 & p1 & p2 & p3 & p4 & ->)|(n0 & n1 & n2 & more & _ & ->)]].
  - by exists ∅.
  - eexists. split; [done|]. intros _. rewrite !fields_lookup. by eauto.
  - eexists. split; [done|]. intros _. rewrite !fields_lookup. by eauto.
Qed.


Lemma matches_opt_sign t :
  Re.matches (Re.Opt (Re.Cls (Re.one_of (py "+-")))) t ↔ opt_sign t.
Proof.
  rewrite matches_opt. setoid_rewrite matches_cls. setoid_rewrite one_of_spec.
  unfold opt_sign. split.
  - intros [->|(c & -> & Hc)]; [by left|]. right.
    apply elem_of_cons in Hc as [->|Hc]; [by left|].
    apply list_elem_of_singleton in Hc. subst. by right.
  - intros [-> | [-> | ->]]; [by left | right..]; eexists; (split; [done|]); set_solver.
Qed.

Lemma matches_digits t : Re.matches (Re.Plus isdecimal) t ↔ digits isdecimal t.
Proof. apply matches_plus_iff. Qed.

Lemma matches_dot t : Re.matches (Re.Cls (Re.one_of (py "."))) t ↔ t = [dot].
Proof.
  rewrite matches_cls. setoid_rewrite one_of_spec. split.
  - intros (c & -> & Hc). apply list_elem_of_singleton in Hc. by subst.
  - intros ->. exists dot. split; [done|]. set_solver.
Qed.

Lemma matches_mantissa t :
  Re.matches
    (Re.Alt
       (Re.Seq (Re.Plus isdecimal)
          (Re.Opt (Re.Seq (Re.Cls (Re.one_of (py "."))) (Re.Star isdecimal))))
       (Re.Seq (Re.Cls (Re.one_of (py "."))) (Re.Plus isdecimal))) t
  ↔ mantissa isdecimal t.
Proof.
  rewrite matches_alt, !matches_seq. unfold mantissa, opt_fraction.
  setoid_rewrite matches_opt. setoid_rewrite matches_seq.
  setoid_rewrite matches_dot. setoid_rewrite matches_digits.
  setoid_rewrite matches_star_iff. split.
  - intros [(a & b & -> & Ha & [->|(a0 & b0 & -> & -> & Hb)])
           |(a & b & -> & -> & Hb)].
    + left. exists a, []. split; [done|]. split; [by left | done].
    + left. exists a, (dot :: b0). split; [done|].
      split; [right; by exists b0 | done].
    + right. by exists b.
  - intros [(i & f & Hi & [->|(d & Hd & ->)] & ->)|(d & Hd & ->)].
    + left. exists i, []. split; [done|]. split; [done | by left].
    + left. exists i, (dot :: d). split; [done|]. split; [done|].
      right. by exists [dot], d.
    + right. by exists [dot], d.
Qed.

Lemma matches_opt_exponent t :
  Re.matches
    (Re.Opt
       (Re.Seq (Re.Cls (Re.one_of (py "eE")))
          (Re.Seq (Re.Opt (Re.Cls (Re.one_of (py "+-")))) (Re.Plus isdecimal)))) t
  ↔ opt_exponent isdecimal t.
Proof.
  rewrite matches_opt, matches_seq. unfold opt_exponent.
  setoid_rewrite matches_seq. setoid_rewrite matches_opt_sign.
  setoid_rewrite matches_digits. setoid_rewrite matches_cls.
  setoid_rewrite one_of_spec. split.
  - intros [->|(a & b & -> & (c & -> & Hc) & (sg & d & -> & Hsg & Hd))];
      [by left|]. right. exists c, sg, d. split; [|done].
    apply elem_of_cons in Hc as [->|Hc]; [by left|].
    apply list_elem_of_singleton in Hc. subst. by right.
  - intros [->|(e & sg & d & He & Hsg & Hd & ->)]; [by left|]. right.
    exists [e], (sg ++ d). split; [done|]. split; [|by eauto].
    exists e. split; [done|]. destruct He as [[= ->]|[= ->]]; set_solver.
Qed.

(** The pattern and the grammar of the specification have the same
    language. *)
Lemma FLOAT_TOKEN_grammar t :
  Re.matches (FLOAT_TOKEN isdecimal) t ↔ float_token isdecimal t.
Proof.
  unfold FLOAT_TOKEN, float_token. rewrite matches_seq.
  setoid_rewrite matches_seq. setoid_rewrite matches_opt_sign.
  setoid_rewrite matches_mantissa. setoid_rewrite matches_opt_exponent.
  split.
  - intros (sg & b & -> & Hsg & (m & e & -> & Hm & He)). by exists sg, m, e.
  - intros (sg & m & e & Hsg & Hm & He & ->).
    exists sg, (m ++ e). split; [done|]. split; [done|]. by exists m, e.
Qed.

Lemma digits_nonempty t : digits isdecimal t → t ≠ [].
Proof. by intros [? _]. Qed.

(** A token has at least one character: a digit. *)
Lemma float_token_nonempty t : float_token isdecimal t → t ≠ [].
Proof.
  intros (sg & m & e & _ & Hm & _ & ->) H.
  apply app_eq_nil in H as [_ [H _]%app_eq_nil].
  destruct Hm as [(i & f & [Hi _] & _ & ->)|(d & _ & ->)]; [|done].
  by apply app_eq_nil in H as [? _].
Qed.

(** What [findall] returns on the pattern are tokens of the grammar. *)
Lemma findall_float_tokens s :
  Forall (float_token isdecimal) (Re.findall (FLOAT_TOKEN isdecimal) s).
Proof.
  destruct (findall_in_order (FLOAT_TOKEN isdecimal) s) as (segs & tl & _ & _ & H & _).
  eapply Forall_impl; [exact H|]. intros t [Ht _]. by apply FLOAT_TOKEN_grammar.
Qed.

Lemma FLOAT_TOKEN_not_empty : ¬ Re.matches (FLOAT_TOKEN isdecimal) [].
Proof. intros H%FLOAT_TOKEN_grammar. by apply float_token_nonempty in H. Qed.

Lemma nothing_starts_token_free g after after' :
  after = after' →
  nothing_starts (FLOAT_TOKEN isdecimal) g after → token_free isdecimal g after'.
Proof.
  intros <- H g1 g2 t u Hg Hg2 Htu Ht.
  apply (H g1 g2 t u Hg Hg2 Htu). by apply FLOAT_TOKEN_grammar.
Qed.

(** C3: a line that, stripped, is neither empty nor a comment, that has
    fewer than five comma-separated parts and fewer than five
    whitespace-separated tokens, and in which the scan for the token
    pattern finds three tokens or more, is parsed into the record with
    NAME and FILTER empty and with HJD, MAG and MAG_ERR the first three
    tokens found, as they stand in the line: they are tokens of the
    grammar and pieces of the line, one after the other, and no token
    starts in the text before, between or inside them that the scan
    skipped; the further tokens play no role. *)
Theorem parse_numeric_fallback line n0 n1 n2 more :
  strip line ≠ [] →
  startswith hash (strip line) = false →
  length (split comma (strip line)) < 5 →
  length (Re.split WHITESPACE (strip line)) < 5 →
  Re.findall (FLOAT_TOKEN isdecimal) (strip line) = n0 :: n1 :: n2 :: more →
  parse_line_to_fields isdecimal line
  = Some {[NAME := []; HJD := n0; MAG := n1; MAG_ERR := n2; FILTER := []]} ∧
  float_token isdecimal n0 ∧ float_token isdecimal n1 ∧
  float_token isdecimal n2 ∧
  ∃ g0 g1 g2 rest,
    strip line = g0 ++ n0 ++ g1 ++ n1 ++ g2 ++ n2 ++ rest ∧
    token_free isdecimal g0 (n0 ++ g1 ++ n1 ++ g2 ++ n2 ++ rest) ∧
    token_free isdecimal g1 (n1 ++ g2 ++ n2 ++ rest) ∧
    token_free isdecimal g2 (n2 ++ rest).
Proof.
  intros Hne Hhash Hcomma Hws Hnums.
  pose proof (findall_float_tokens (strip line)) as Htok.
  rewrite Hnums in Htok.
  apply Forall_cons in Htok as [H0 Htok]. apply Forall_cons in Htok as [H1 Htok].
  apply Forall_cons in Htok as [H2 _].
  split_and!; [|done..|].
  - unfold parse_line_to_fields. rewrite not_blank_or_comment by done.
    rewrite (proj2 (Nat.leb_gt _ _) Hcomma), (proj2 (Nat.leb_gt _ _) Hws).
    rewrite Hnums. simpl. by rewrite dict_literal_fields.
  - destruct (findall_in_order (FLOAT_TOKEN isdecimal) (strip line))
      as (segs & tl & Hsegs & Hs & _ & Hleft).
    specialize (Hleft FLOAT_TOKEN_not_empty).
    rewrite Hnums in Hsegs.
    destruct segs as [|[g0 m0] [|[g1 m1] [|[g2 m2] segs]]]; simplify_eq/=.
    destruct Hleft as (L0 & L1 & L2 & _).
    exists g0, g1, g2, (flat segs ++ tl). unfold flat in *. simpl in *.
    split_and!.
    + rewrite Hs. by rewrite <-!(assoc_L (++)).
    + eapply nothing_starts_token_free; [|exact L0].
      by rewrite <-!(assoc_L (++)).
    + eapply nothing_starts_token_free; [|exact L1].
      by rewrite <-!(assoc_L (++)).
    + eapply nothing_starts_token_free; [|exact L2]. done.
Qed.

Lemma float_token_no_space t :
  (∀ c, isdecimal c = true → isspace c = false) →
  float_token isdecimal t → Forall (λ c, isspace c = false) t.
Proof.
  intros Hdec (sg & m & e & Hsg & Hm & He & ->).
  assert (∀ d, Forall (λ c, isdecimal c = true) d →
               Forall (λ c, isspace c = false) d) as Hd.
  { intros d Hd. by eapply Forall_impl. }
  assert (∀ sg, opt_sign sg → Forall (λ c, isspace c = false) sg) as Hs.
  { intros ? [-> | [-> | ->]]; by repeat constructor. }
  rewrite !Forall_app. split_and!.
  - by apply Hs.
  - destruct Hm as [(i & f & [_ Hi] & Hf & ->)|(d & [_ Hd'] & ->)].
    + rewrite Forall_app. split; [by apply Hd|].
      destruct Hf as [->|(d & Hd' & ->)]; [done|].
      constructor; [done | by apply Hd].
    + constructor; [done | by apply Hd].
  - destruct He as [->|(c & sg' & d & Hc & Hsg' & [_ Hd'] & ->)]; [done|].
    constructor; [by destruct Hc as [[= ->]|[= ->]]|].
    rewrite Forall_app. split; [by apply Hs | by apply Hd].
Qed.

(** C10: when no decimal digit is whitespace, no value of the dict that
    the parser returns starts or ends with whitespace. *)
Theorem parse_values_trimmed line d :
  (∀ c, isdecimal c = true → isspace c = false) →
  parse_line_to_fields isdecimal line = Some d →
  ∀ k v, d !! k = Some v → trimmed v.
Proof.
  intros Hdec Hd k v.
  destruct (parse_cases line)
    as [H|[(p0 & p1 & p2 & p3 & p4 & H)|(n0 & n1 & n2 & more & Hnums & H)]];
    rewrite H in Hd; injection Hd as <-.
  - by rewrite lookup_empty.
  - rewrite fields_lookup.
    repeat case_decide; intros [= <-]; apply strip_trimmed.
  - pose proof (findall_float_tokens (strip line)) as Htok.
    rewrite Hnums in Htok.
    apply Forall_cons in Htok as [H0 Htok].
    apply Forall_cons in Htok as [H1 Htok]. apply Forall_cons in Htok as [H2 _].
    rewrite fields_lookup.
    repeat case_decide; intros [= <-];
      auto using trimmed_no_space, float_token_no_space.
    all: by split.
Qed.

End Parser.

(** * The table formatter *)

Section Formatter.
Import PyStr.

Lemma foldl_max_list (l : list nat) (a : nat) :
  foldl Nat.max a l = a `max` max_list l.
Proof.
  revert a. induction l as [|n l IH]; intros a; simpl; [lia|].
  rewrite IH. change (max_list_with id (n :: l)) with (n `max` max_list l). lia.
Qed.

Lemma max_lengths (lens : list nat) (n : nat) :
  max (lens ++ [n]) = Some (max_list lens `max` n).
Proof.
  destruct lens as [|a l]; simpl; [done|]. f_equal.
  rewrite foldl_max_list.
  change (max_list_with id (a :: l)) with (a `max` max_list l).
  assert (max_list (l ++ [n]) = max_list l `max` n) as ->; [|lia].
  induction l as [|b l IH]; simpl; [lia|].
  change (max_list_with id (b :: l ++ [n])) with (b `max` max_list (l ++ [n])).
  change (max_list_with id (b :: l)) with (b `max` max_list l).
  rewrite IH. lia.
Qed.

Lemma max_list_lengths (rows : list dict) (col : str) :
  max_list ((λ r, length (get r col)) <$> rows)
  = max_list_with (λ r, length (get r col)) rows.
Proof. induction rows as [|r rows IH]; [done|]. simpl. by rewrite <-IH. Qed.

(** The first loop never fails; it sets the width of each selected column
    and leaves the other keys alone. *)
Lemma widths_loop_spec (rows : list dict) (cols : list str)
    (widths0 : gmap str nat) :
  ∃ widths, widths_loop rows cols widths0 = Some widths ∧
    ∀ col, widths !! col
           = if decide (col ∈ cols) then Some (column_width rows col)
             else widths0 !! col.
Proof.
  revert widths0. induction cols as [|col0 cols IH]; intros widths0; simpl.
  - by exists widths0.
  - rewrite max_lengths, max_list_lengths. simpl.
    destruct (IH (<[col0 := column_width rows col0]> widths0)) as (W & HWeq & HW).
    exists W. split; [exact HWeq|]. intros col. rewrite HW, lookup_insert.
    destruct (decide (col ∈ cols)) as [Hin|Hnin].
    + by rewrite decide_True by (by right).
    + destruct (decide (col0 = col)) as [->|Hne].
      * by rewrite decide_True by (by left).
      * rewrite decide_False; [done|].
        intros [?|?]%elem_of_cons; [congruence | done].
Qed.

Lemma render_spec (widths : gmap str nat) (rows : list dict)
    (cols : list str) (cell : str → str) :
  (∀ col, col ∈ cols → widths !! col = Some (column_width rows col)) →
  render widths cols cell = Some (table_line rows cols cell).
Proof.
  unfold render, table_line. intros H.
  induction cols as [|col cols IH]; [done|]. simpl.
  rewrite (H col) by (by left). simpl.
  assert (∀ c, c ∈ cols → widths !! c = Some (column_width rows c)) as H'
    by (intros c Hc; apply H; by right).
  specialize (IH H').
  destruct (mapM _ cols) as [k|]; [|done]. simpl in *. by injection IH as ->.
Qed.

(** The formatter never fails and builds the lines of the specification. *)
Lemma format_lines_spec (rows : list dict) (cols : list str) :
  format_lines rows cols
  = Some (table_line rows cols id
          :: ((λ r, table_line rows cols (get r)) <$> rows)).
Proof.
  unfold format_lines.
  destruct (widths_loop_spec rows cols ∅) as (W & -> & HW). simpl.
  assert (∀ col, col ∈ cols → W !! col = Some (column_width rows col)) as HW'.
  { intros col Hcol. rewrite HW. by rewrite decide_True. }
  rewrite (render_spec W rows cols id HW'). simpl.
  assert (mapM (λ r, render W cols (get r)) rows
          = Some ((λ r, table_line rows cols (get r)) <$> rows)) as ->.
  { apply mapM_Some_2, Forall2_fmap_r, Forall_Forall2_diag, Forall_forall.
    intros r _. by apply render_spec. }
  done.
Qed.

Lemma max_list_with_ge {A} (f : A → nat) (l : list A) (x : A) :
  x ∈ l → f x ≤ max_list_with f l.
Proof.
  induction 1 as [x l|x y l _ IH]; simpl; lia.
Qed.

Lemma max_list_with_attained {A} (f : A → nat) (l : list A) :
  max_list_with f l = 0 ∨ ∃ x, x ∈ l ∧ max_list_with f l = f x.
Proof.
  induction l as [|y l IH]; simpl; [by left|]. right.
  destruct (Nat.max_spec (f y) (max_list_with f l)) as [[Hlt ->]|[Hle ->]].
  - destruct IH as [H0|(x & Hx & Hm)]; [lia|].
    exists x. split; [by right | done].
  - exists y. split; [by left | done].
Qed.

Lemma column_width_name (rows : list dict) (col : str) :
  length col + 3 ≤ column_width rows col.
Proof. unfold column_width. lia. Qed.

Lemma column_width_value (rows : list dict) (col : str)
    (r : dict) :
  r ∈ rows → length (get r col) + 3 ≤ column_width rows col.
Proof.
  intros Hr. unfold column_width.
  pose proof (max_list_with_ge (λ r, length (get r col)) rows r Hr). simpl in *. lia.
Qed.

(** C5: the first loop gives every selected column the width [m + 3],
    where [m] is the largest of the length of the column name and of the
    lengths of the values that the records hold for that column, the
    empty string standing for an absent key: [m] is at least each of these
    lengths, in particular the length of every value stored under the
    column, and is one of them; with no record, [m] is the length of the
    column name. *)
Theorem column_widths (rows : list dict) (cols : list str) :
  ∃ widths, widths_loop rows cols ∅ = Some widths ∧
    ∀ col, col ∈ cols →
      ∃ m, widths !! col = Some (m + 3) ∧
        length col ≤ m ∧
        (∀ r, r ∈ rows → length (default [] (r !! col)) ≤ m) ∧
        (∀ r v, r ∈ rows → r !! col = Some v → length v ≤ m) ∧
        (m = length col ∨
         ∃ r, r ∈ rows ∧ m = length (default [] (r !! col))) ∧
        (rows = [] → m = length col).
Proof.
  destruct (widths_loop_spec rows cols ∅) as (W & HW & Hlookup).
  exists W. split; [done|]. intros col Hcol.
  exists (max_list_with (λ r, length (get r col)) rows `max` length col).
  rewrite Hlookup, decide_True by done. split; [done|]. split; [lia|].
  assert (∀ r, r ∈ rows →
            length (default [] (r !! col))
            ≤ max_list_with (λ r, length (get r col)) rows `max` length col)
    as Hbound.
  { intros r Hr.
    pose proof (max_list_with_ge (λ r, length (get r col)) rows r Hr) as Hge.
    unfold get in Hge at 1. lia. }
  split; [done|]. split; [|split].
  - intros r v Hr Hv. specialize (Hbound r Hr). by rewrite Hv in Hbound.
  - destruct (max_list_with_attained (λ r, length (get r col)) rows)
      as [->|(r & Hr & Hm)]; [left; lia|].
    destruct (Nat.max_spec (max_list_with (λ r, length (get r col)) rows)
                (length col)) as [[_ ->]|[_ ->]]; [by left|].
    right. by exists r.
  - intros ->. simpl. lia.
Qed.

Lemma length_join sep (l : list str) :
  length (join sep l) = sum_list (length <$> l) + (length l - 1).
Proof.
  induction l as [|x [|y l] IH]; simpl in *; [done | lia |].
  rewrite length_app. simpl. rewrite IH. lia.
Qed.

Lemma computed_widths (rows : list dict) (cols : list str) :
  ∃ widths, widths_loop rows cols ∅ = Some widths ∧
    Forall2 (λ col w, widths !! col = Some w) cols (column_width rows <$> cols).
Proof.
  destruct (widths_loop_spec rows cols ∅) as (W & HW & Hlookup).
  exists W. split; [done|].
  apply Forall2_fmap_r, Forall_Forall2_diag, Forall_forall.
  intros col Hcol. by rewrite Hlookup, decide_True.
Qed.

Lemma table_line_zip (rows : list dict) (cols : list str)
    (cell : str → str) :
  table_line rows cols cell
  = concat (zip_with ljust (cell <$> cols) (column_width rows <$> cols)).
Proof.
  unfold table_line. f_equal.
  by rewrite zip_with_fmap_l, zip_with_fmap_r, zip_with_diag.
Qed.

Lemma join_cons sep (x : str) (l : list str) :
  join sep (x :: l) = x ++ concat ((λ y, sep :: y) <$> l).
Proof.
  revert x. induction l as [|y l IH]; intros x.
  - simpl. by rewrite app_nil_r.
  - change (join sep (x :: y :: l)) with (x ++ sep :: join sep (y :: l)).
    by rewrite IH.
Qed.

Lemma length_padded (w : str → nat) (cell : str → str) (cols : list str) :
  (∀ col, length (cell col) ≤ w col) →
  length (concat ((λ col, cell col ++ replicate (w col - length (cell col)) space)
                  <$> cols))
  = sum_list (w <$> cols).
Proof.
  intros H. induction cols as [|col cols IH]; [done|].
  cbn [fmap list_fmap concat sum_list sum_list_with].
  rewrite !length_app, length_replicate. specialize (H col).
  unfold sum_list in IH. rewrite IH.
  by replace (length (cell col) + (w col - length (cell col))) with (w col) by lia.
Qed.

Lemma table_line_padded (rows : list dict) (cols : list str)
    (cell : str → str) :
  table_line rows cols cell
  = concat
      (zip_with (λ v w, v ++ replicate (w - length v) space) (cell <$> cols)
         ((λ col, (max_list_with (λ r, length (default [] (r !! col))) rows
                   `max` length col) + 3) <$> cols)).
Proof.
  unfold table_line. f_equal.
  by rewrite zip_with_fmap_l, zip_with_fmap_r, zip_with_diag.
Qed.

(** C6: the output is the header line followed by one line for each
    record, in the order of the records, each line after the header
    preceded by one newline and none added at the end. The header holds
    the column names and the line of a record the values it holds for the
    columns (the empty string for an absent key), in the order of the
    selected columns and with nothing between them; each name or value is
    followed by spaces up to the width that the first loop computed for
    its column, which is 3 more than the longest of the name and of the
    values of the column. *)
Theorem format_table_layout (rows : list dict) (cols : list str) :
  ∃ widths ws header lines,
    widths_loop rows cols ∅ = Some widths ∧
    Forall2 (λ col w, widths !! col = Some w) cols ws ∧
    ws = (λ col, (max_list_with (λ r, length (default [] (r !! col))) rows
                  `max` length col) + 3) <$> cols ∧
    header
    = concat (zip_with (λ v w, v ++ replicate (w - length v) space) cols ws) ∧
    lines
    = (λ r, concat (zip_with (λ v w, v ++ replicate (w - length v) space)
                      ((λ col, default [] (r !! col)) <$> cols) ws))
      <$> rows ∧
    length lines = length rows ∧
    format_table rows cols
    = Some (header ++ concat ((λ line, newline :: line) <$> lines)) ∧
    length header = sum_list ws ∧
    Forall (λ line, length line = sum_list ws) lines.
Proof.
  destruct (computed_widths rows cols) as (W & HW & Hws).
  exists W, (column_width rows <$> cols). eexists _, _.
  split; [done|]. split; [done|]. split; [done|].
  split; [done|]. split; [done|]. split; [by rewrite length_fmap|].
  assert (∀ cell : str → str,
            (∀ col, length (cell col) + 3 ≤ column_width rows col) →
            length
              (concat (zip_with (λ v w, v ++ replicate (w - length v) space)
                         (cell <$> cols) (column_width rows <$> cols)))
            = sum_list (column_width rows <$> cols)) as Hlen.
  { intros cell Hcell.
    rewrite zip_with_fmap_l, zip_with_fmap_r, zip_with_diag.
    apply (length_padded (column_width rows) cell).
    intros col. specialize (Hcell col). lia. }
  split_and!.
  - unfold format_table. rewrite format_lines_spec.
    cbn [fmap option_fmap option_map]. rewrite join_cons. do 2 f_equal.
    + rewrite table_line_padded. by rewrite list_fmap_id.
    + do 2 f_equal. apply list_fmap_ext. intros i r _. apply table_line_padded.
  - rewrite <-(list_fmap_id cols) at 1. apply Hlen.
    intros col. apply column_width_name.
  - apply Forall_fmap, Forall_forall. intros r Hr. apply (Hlen (get r)).
    intros col. by apply column_width_value.
Qed.

Lemma join_empty_lines (n : nat) :
  join newline ([] :: replicate n []) = replicate n newline.
Proof. induction n as [|n IH]; [done|]. simpl in *. by rewrite IH. Qed.

(** C9: the formatter returns a string for every list of records and every
    list of columns; with no column selected the string is one newline for
    each record and nothing else. *)
Theorem format_table_no_error (rows : list dict) :
  (∀ cols, is_Some (format_table rows cols)) ∧
  format_table rows [] = Some (replicate (length rows) newline).
Proof.
  unfold format_table. split.
  - intros cols. rewrite format_lines_spec. by eexists.
  - rewrite format_lines_spec.
    assert (∀ l : list dict,
              (λ r, table_line rows [] (get r)) <$> l = replicate (length l) [])
      as -> by (induction l as [|r l IH]; [done|]; simpl; f_equal; exact IH).
    cbn [fmap option_fmap option_map]. f_equal. apply join_empty_lines.
Qed.

(** Cutting a line at the column boundaries gives the padded cells. *)
Lemma slices_cells (w : str → nat) (cell : str → str) (cols : list str) :
  (∀ col, col ∈ cols → length (cell col) ≤ w col) →
  slices (w <$> cols) (concat ((λ col, ljust (cell col) (w col)) <$> cols))
  = (λ col, ljust (cell col) (w col)) <$> cols.
Proof.
  induction cols as [|col cols IH]; intros H; [done|].
  assert (length (ljust (cell col) (w col)) = w col) as Hlen
    by (apply length_ljust, H; by left).
  cbn [fmap list_fmap concat slices].
  rewrite take_app_length', drop_app_length' by done.
  f_equal. apply IH. intros c Hc. apply H. by right.
Qed.

Lemma length_cells (w : str → nat) (cell : str → str) (cols : list str) :
  (∀ col, col ∈ cols → length (cell col) ≤ w col) →
  length (concat ((λ col, ljust (cell col) (w col)) <$> cols))
  = sum_list (w <$> cols).
Proof.
  induction cols as [|col cols IH]; intros H; [done|].
  cbn [fmap list_fmap concat sum_list sum_list_with].
  rewrite length_app, length_ljust by (apply H; by left).
  unfold sum_list in IH. rewrite IH; [done|]. intros c Hc. apply H. by right.
Qed.

Lemma rstrip_spaces_cells (w : str → nat) (cell : str → str) (cols : list str) :
  rstrip_spaces <$> ((λ col, ljust (cell col) (w col)) <$> cols)
  = (λ col, rstrip_spaces (cell col)) <$> cols.
Proof.
  rewrite <-list_fmap_compose. apply list_fmap_ext.
  intros i col _. apply rstrip_spaces_ljust.
Qed.

Lemma rstrip_spaces_exact (cell : str → str) (cols : list str) :
  Forall (λ col, no_trailing_space (cell col)) cols →
  (λ col, rstrip_spaces (cell col)) <$> cols = cell <$> cols.
Proof.
  intros H. apply Forall_fmap_ext_1. eapply Forall_impl; [exact H|].
  intros col Hcol. by apply rstrip_spaces_id.
Qed.

(** C7 as it is worded fails: a value that ends with a space comes back
    without it. *)
Lemma slices_lose_trailing_space :
  ¬ slices_recover_exactly [{[HJD := py "1 "]}] [HJD].
Proof.
  intros (widths & ws & header & lines & HW & Hws & Hf & _ & H).
  injection HW as <-.
  apply Forall2_cons_inv_l in Hws as (w & ws' & Hw & ->%Forall2_nil_inv_l & ->).
  vm_compute in Hw. injection Hw as <-.
  rewrite format_lines_spec in Hf. injection Hf as <- <-.
  apply Forall2_cons_1 in H as [H _]. vm_compute in H. discriminate.
Qed.

(** C7, amended: every line of the table is as long as the widths of the
    selected columns together, each width being at least 3 more than the
    length of the name and of every value of its column; cutting a line at
    these widths and trimming the trailing spaces of each slice gives the
    column names (header) and the values of the record (the empty string
    for an absent key) up to their own trailing spaces, and exactly those
    that do not end with a space. *)
Theorem format_table_slices (rows : list dict) (cols : list str) :
  ∃ widths ws header lines,
    widths_loop rows cols ∅ = Some widths ∧
    Forall2 (λ col w, widths !! col = Some w) cols ws ∧
    format_lines rows cols = Some (header :: lines) ∧
    Forall2 (λ col w, length col + 3 ≤ w ∧
                      ∀ r, r ∈ rows → length (get r col) + 3 ≤ w) cols ws ∧
    Forall (λ line, length line = sum_list ws) (header :: lines) ∧
    rstrip_spaces <$> slices ws header = rstrip_spaces <$> cols ∧
    (Forall no_trailing_space cols →
     rstrip_spaces <$> slices ws header = cols) ∧
    Forall2 (λ r line,
               rstrip_spaces <$> slices ws line
               = (λ col, rstrip_spaces (get r col)) <$> cols ∧
               (Forall (λ col, no_trailing_space (get r col)) cols →
                rstrip_spaces <$> slices ws line = get r <$> cols))
            rows lines.
Proof.
  destruct (computed_widths rows cols) as (W & HW & Hws).
  exists W, (column_width rows <$> cols). eexists _, _.
  split; [done|]. split; [done|]. split; [apply format_lines_spec|].
  assert (∀ col, col ∈ cols → length (id col) ≤ column_width rows col) as Hid.
  { intros col _. pose proof (column_width_name rows col). simpl. lia. }
  assert (∀ r, r ∈ rows →
            ∀ col, col ∈ cols → length (get r col) ≤ column_width rows col) as Hget.
  { intros r Hr col _. pose proof (column_width_value rows col r Hr). lia. }
  split_and!.
  - apply Forall2_fmap_r, Forall_Forall2_diag, Forall_forall. intros col _.
    split; [apply column_width_name|]. intros r. apply column_width_value.
  - constructor; [by apply length_cells|].
    apply Forall_fmap, Forall_forall. intros r Hr. by apply length_cells, Hget.
  - unfold table_line. rewrite (slices_cells (column_width rows) id cols Hid).
    apply rstrip_spaces_cells.
  - intros Hcols. unfold table_line.
    rewrite (slices_cells (column_width rows) id cols Hid), rstrip_spaces_cells.
    rewrite (rstrip_spaces_exact id) by done. apply list_fmap_id.
  - apply Forall2_fmap_r, Forall_Forall2_diag, Forall_forall. intros r Hr.
    unfold compose, table_line. cbv beta.
    rewrite (slices_cells (column_width rows) (get r) cols (Hget r Hr)).
    rewrite rstrip_spaces_cells. split; [done|]. apply rstrip_spaces_exact.
Qed.

End Formatter.

(** * More on the line parser *)

Section Parser_more.
Context (isdecimal : char → bool).
Import PyStr.

Lemma lstrip_all_space s : Forall (λ c, isspace c = true) s → lstrip s = [].
Proof. intros H. by rewrite <-(app_nil_r s), lstrip_spaces. Qed.

Lemma rstrip_spaces_r s r :
  Forall (λ c, isspace c = true) r → rstrip (s ++ r) = rstrip s.
Proof.
  intros H. unfold rstrip. rewrite reverse_app, lstrip_spaces; [done|].
  by apply Forall_reverse.
Qed.

Lemma lstrip_app s r :
  lstrip s ≠ [] → lstrip (s ++ r) = lstrip s ++ r.
Proof.
  induction s as [|c s IH]; simpl; [done|].
  destruct (isspace c); [exact IH | done].
Qed.

Lemma strip_pad l s r :
  Forall (λ c, isspace c = true) l → Forall (λ c, isspace c = true) r →
  strip (l ++ s ++ r) = strip s.
Proof.
  intros Hl Hr. unfold strip. rewrite lstrip_spaces by done.
  destruct (lstrip s) as [|c t] eqn:E.
  - destruct (lstrip_split s) as (ws & Hs & Hws). rewrite E, app_nil_r in Hs.
    subst ws. rewrite lstrip_all_space; [done|]. by apply Forall_app.
  - rewrite lstrip_app by (by rewrite E). rewrite E. by apply rstrip_spaces_r.
Qed.

(** X1: whitespace around a line, such as the newline that ends a line of
    a file, plays no role in what the parser returns. *)
Theorem parse_ignores_padding line l r :
  Forall (λ c, isspace c = true) l → Forall (λ c, isspace c = true) r →
  parse_line_to_fields isdecimal (l ++ line ++ r)
  = parse_line_to_fields isdecimal line.
Proof.
  intros Hl Hr. unfold parse_line_to_fields. by rewrite strip_pad.
Qed.

Lemma record_not_empty (name hjd mag mag_err filter : str) :
  ({[NAME := name; HJD := hjd; MAG := mag; MAG_ERR := mag_err;
     FILTER := filter]} : dict) ≠ ∅.
Proof.
  intros H. apply (f_equal (λ d : dict, d !! NAME)) in H.
  by rewrite fields_lookup, lookup_empty in H.
Qed.

Lemma record_keys (name hjd mag mag_err filter : str) (k : str) :
  is_Some (({[NAME := name; HJD := hjd; MAG := mag; MAG_ERR := mag_err;
              FILTER := filter]} : dict) !! k) ↔ k ∈ ALL_COLUMNS.
Proof.
  rewrite fields_lookup. unfold ALL_COLUMNS.
  rewrite !elem_of_cons, elem_of_nil.
  repeat case_decide; split; intros Hk; eauto 10.
  - by destruct Hk.
  - destruct Hk as [?|[?|[?|[?|[?|[]]]]]]; done.
Qed.

(** X2: the parser returns the empty dict or a dict with exactly the five
    keys NAME, HJD, MAG, MAG_ERR and FILTER: never a partial record. *)
Theorem parse_all_or_nothing line :
  ∃ d, parse_line_to_fields isdecimal line = Some d ∧
    (d = ∅ ∨ (d ≠ ∅ ∧ ∀ k, is_Some (d !! k) ↔ k ∈ ALL_COLUMNS)).
Proof.
  destruct (parse_cases isdecimal line)
    as [->|[(p0 & p1 & p2 & p3 & p4 & ->)|(n0 & n1 & n2 & more & _ & ->)]].
  - exists ∅. by split; [|left].
  - eexists. split; [done|]. right.
    split; [apply record_not_empty | apply record_keys].
  - eexists. split; [done|]. right.
    split; [apply record_not_empty | apply record_keys].
Qed.

(** X3: a line is skipped (parsed into the empty dict) exactly when,
    stripped, it is empty, or starts with [#], or has fewer than five
    comma-separated parts, fewer than five whitespace-separated tokens and
    fewer than three numeric tokens. *)
Theorem parse_skipped_iff line :
  parse_line_to_fields isdecimal line = Some ∅ ↔
  strip line = [] ∨ startswith hash (strip line) = true ∨
  (length (split comma (strip line)) < 5 ∧
   length (Re.split WHITESPACE (strip line)) < 5 ∧
   length (Re.findall (FLOAT_TOKEN isdecimal) (strip line)) < 3).
Proof.
  destruct (decide (strip line = [])) as [He|He].
  { unfold parse_line_to_fields. rewrite bool_decide_eq_true_2 by done.
    split; [by left | done]. }
  destruct (startswith hash (strip line)) eqn:Hh.
  { unfold parse_line_to_fields. rewrite Hh, orb_true_r.
    split; [intros _; right; by left | done]. }
  unfold parse_line_to_fields. rewrite not_blank_or_comment by done.
  destruct (Nat.leb_spec 5 (length (split comma (strip line)))) as [H|H];
    cbv iota.
  { pose proof H as (p0 & p1 & p2 & p3 & p4 & extra & E)%at_least_5.
    rewrite E, positional_fields. split.
    - intros Hd. apply (inj Some) in Hd.
      by destruct (record_not_empty _ _ _ _ _ Hd).
    - intros [?|[?|[? _]]]; [done..|]. rewrite E in *. simpl in *. lia. }
  destruct (Nat.leb_spec 5 (length (Re.split WHITESPACE (strip line))))
    as [H'|H']; cbv iota.
  { pose proof H' as (p0 & p1 & p2 & p3 & p4 & extra & E)%at_least_5.
    rewrite E, positional_fields. split.
    - intros Hd. apply (inj Some) in Hd.
      by destruct (record_not_empty _ _ _ _ _ Hd).
    - intros [?|[?|(_ & ? & _)]]; [done..|]. rewrite E in *. simpl in *. lia. }
  destruct (Re.findall (FLOAT_TOKEN isdecimal) (strip line))
    as [|n0 [|n1 [|n2 more]]] eqn:E.
  1-3: split; [intros _; right; right; repeat split; simpl; lia | done].
  cbn [length Nat.leb lookup list_lookup mbind option_bind].
  rewrite dict_literal_fields. split.
  - intros Hd. apply (inj Some) in Hd.
    by destruct (record_not_empty _ _ _ _ _ Hd).
  - intros [?|[?|(_ & _ & ?)]]; [done..|]. simpl in *. lia.
Qed.

Lemma piece_of_refl (s : str) : piece_of s s.
Proof. exists [], []. by rewrite app_nil_r. Qed.

Lemma piece_of_nil (s : str) : piece_of [] s.
Proof. by exists [], s. Qed.

Lemma piece_of_trans (u v s : str) : piece_of u v → piece_of v s → piece_of u s.
Proof.
  intros (a & b & ->) (a' & b' & ->). exists (a' ++ a), (b ++ b').
  by rewrite <-!(assoc_L (++)).
Qed.

Lemma piece_of_elem (v s : str) (c : char) : piece_of v s → c ∈ v → c ∈ s.
Proof. intros (a & b & ->) Hc. rewrite !elem_of_app. auto. Qed.

Lemma strip_piece s : piece_of (strip s) s.
Proof. destruct (strip_spec s) as (l & r & Hs & _). by exists l, r. Qed.

Lemma join_piece sep (l : list str) (p : str) :
  p ∈ l → piece_of p (join sep l).
Proof.
  induction l as [|x l IH]; [by intros ?%elem_of_nil|].
  intros [->|Hp]%elem_of_cons.
  - destruct l as [|y l]; [apply piece_of_refl|].
    exists [], (sep :: join sep (y :: l)). done.
  - destruct l as [|y l]; [by apply elem_of_nil in Hp|].
    destruct (IH Hp) as (a & b & Hj).
    exists (x ++ sep :: a), b.
    change (join sep (x :: y :: l)) with (x ++ sep :: join sep (y :: l)).
    rewrite Hj. by rewrite <-(assoc_L (++)).
Qed.

Lemma split_piece sep s (p : str) : p ∈ split sep s → piece_of p s.
Proof. intros Hp. rewrite <-(join_split sep s). by apply join_piece. Qed.

Lemma flat_cons (g m : str) (segs : list (str * str)) :
  flat ((g, m) :: segs) = g ++ m ++ flat segs.
Proof. unfold flat. simpl. by rewrite <-(assoc_L (++)). Qed.

Lemma flat_piece (segs : list (str * str)) (g m : str) :
  (g, m) ∈ segs → piece_of g (flat segs) ∧ piece_of m (flat segs).
Proof.
  induction segs as [|[g0 m0] segs IH]; [by intros ?%elem_of_nil|].
  rewrite flat_cons. intros [[= -> ->]|Hin]%elem_of_cons.
  - split; [by exists [], (m0 ++ flat segs) | by exists g0, (flat segs)].
  - destruct (IH Hin) as [(a & b & Hg) (a' & b' & Hm)]. split.
    + exists (g0 ++ m0 ++ a), b. rewrite Hg. by rewrite <-!(assoc_L (++)).
    + exists (g0 ++ m0 ++ a'), b'. rewrite Hm. by rewrite <-!(assoc_L (++)).
Qed.

Lemma piece_of_app_l (v s t : str) : piece_of v s → piece_of v (s ++ t).
Proof.
  intros (a & b & ->). exists a, (b ++ t). by rewrite <-!(assoc_L (++)).
Qed.

Lemma findall_piece r s (t : str) : t ∈ Re.findall r s → piece_of t s.
Proof.
  destruct (findall_in_order r s) as (segs & tl & -> & Hs & _).
  intros ([g m] & -> & Hin)%list_elem_of_fmap. rewrite Hs.
  apply piece_of_app_l. by apply (flat_piece segs g m).
Qed.

Lemma re_split_piece r s (t : str) : t ∈ Re.split r s → piece_of t s.
Proof.
  destruct (split_covers r s) as (segs & tl & -> & Hs).
  intros [([g m] & -> & Hin)%list_elem_of_fmap | ->%list_elem_of_singleton]%elem_of_app;
    rewrite Hs.
  - apply piece_of_app_l. by apply (flat_piece segs g m).
  - exists (flat segs), []. by rewrite app_nil_r.
Qed.

(** The three shapes of a result, with where the values come from. *)
Lemma parse_shapes line :
  parse_line_to_fields isdecimal line = Some ∅ ∨
  (∃ p0 p1 p2 p3 p4 extra,
     (split comma (strip line) = p0 :: p1 :: p2 :: p3 :: p4 :: extra ∨
      Re.split WHITESPACE (strip line) = p0 :: p1 :: p2 :: p3 :: p4 :: extra) ∧
     parse_line_to_fields isdecimal line
     = Some {[NAME := strip p0; HJD := strip p1; MAG := strip p2;
              MAG_ERR := strip p3; FILTER := strip p4]}) ∨
  (∃ n0 n1 n2 more,
     Re.findall (FLOAT_TOKEN isdecimal) (strip line) = n0 :: n1 :: n2 :: more ∧
     parse_line_to_fields isdecimal line
     = Some {[NAME := []; HJD := n0; MAG := n1; MAG_ERR := n2; FILTER := []]}).
Proof.
  unfold parse_line_to_fields.
  destruct (bool_decide (strip line = []) || startswith hash (strip line));
    [by left|].
  destruct (Nat.leb_spec 5 (length (split comma (strip line)))) as [H|_].
  { apply at_least_5 in H as (p0 & p1 & p2 & p3 & p4 & extra & E).
    right; left. exists p0, p1, p2, p3, p4, extra. rewrite E.
    split; [by left | apply positional_fields]. }
  destruct (Nat.leb_spec 5 (length (Re.split WHITESPACE (strip line)))) as [H|_].
  { apply at_least_5 in H as (p0 & p1 & p2 & p3 & p4 & extra & E).
    right; left. exists p0, p1, p2, p3, p4, extra. rewrite E.
    split; [by right | apply positional_fields]. }
  destruct (Re.findall (FLOAT_TOKEN isdecimal) (strip line))
    as [|n0 [|n1 [|n2 more]]] eqn:E; simpl; try by left.
  right; right. exists n0, n1, n2, more. by rewrite dict_literal_fields.
Qed.

Lemma parse_value_piece line d k v :
  parse_line_to_fields isdecimal line = Some d →
  d !! k = Some v → piece_of v (strip line).
Proof.
  intros Hd Hk.
  destruct (parse_shapes line)
    as [H|[(p0 & p1 & p2 & p3 & p4 & extra & Hparts & H)
          |(n0 & n1 & n2 & more & Hnums & H)]];
    rewrite H in Hd; apply (inj Some) in Hd; subst d.
  - by rewrite lookup_empty in Hk.
  - assert (∀ p, p ∈ p0 :: p1 :: p2 :: p3 :: p4 :: extra →
                 piece_of (strip p) (strip line)) as Hp.
    { intros p Hin. eapply piece_of_trans; [apply strip_piece|].
      destruct Hparts as [E|E]; rewrite <-E in Hin.
      - by eapply split_piece.
      - by eapply re_split_piece. }
    rewrite fields_lookup in Hk.
    repeat case_decide; simplify_eq; apply Hp; repeat first [by left | right].
  - assert (∀ n, n ∈ n0 :: n1 :: n2 :: more → piece_of n (strip line)) as Hn.
    { intros n Hin. rewrite <-Hnums in Hin. by eapply findall_piece. }
    rewrite fields_lookup in Hk.
    repeat case_decide; simplify_eq; try apply piece_of_nil;
      apply Hn; repeat first [by left | right].
Qed.

(** X4: the parser stores text as it stands: every value of the dict it
    returns is a contiguous piece of the stripped line, hence of the line,
    character for character. *)
Theorem parse_values_verbatim line d k v :
  parse_line_to_fields isdecimal line = Some d →
  d !! k = Some v →
  piece_of v (strip line) ∧ piece_of v line.
Proof.
  intros Hd Hk. pose proof (parse_value_piece line d k v Hd Hk) as Hv.
  split; [done|]. eapply piece_of_trans; [exact Hv | apply strip_piece].
Qed.

(** The greedy star stops only where the class stops. *)
Lemma star_maximal p s rest :
  Re.star p s Some = Some rest → ∀ c, head rest = Some c → p c = false.
Proof.
  induction s as [|c0 s IH]; simpl.
  - by intros [= <-].
  - destruct (p c0) eqn:Hc0.
    + destruct (Re.star p s Some) as [rest'|] eqn:E.
      * intros [= <-]. by apply IH.
      * destruct (star_complete p [] s Some s) as [x Hx]; [done..|].
        simpl in Hx. congruence.
    + intros [= <-] c [= <-]. done.
Qed.

Lemma match_plus_maximal p c s :
  p c = true →
  ∃ m rest, Re.match_ (Re.Plus p) (c :: s) = Some (c :: m, rest) ∧
    c :: s = (c :: m) ++ rest ∧ Forall (λ x, p x = true) m ∧
    ∀ c', head rest = Some c' → p c' = false.
Proof.
  intros Hc.
  destruct (star_complete p [] s Some s) as [rest E]; [done..|]. simpl in E.
  pose proof (star_maximal p s rest E) as Hmax.
  pose proof (star_sound p s Some rest E) as (m & s1 & -> & Hm & [= ->]).
  exists m, rest. split; [|done].
  unfold Re.match_. simpl. rewrite Hc, E. simpl. rewrite length_app.
  replace (S (length m + length rest) - length rest) with (S (length m)) by lia.
  simpl. by rewrite take_app_length.
Qed.

(** In a pass of [p+] over a text that ends outside [p], text is left
    after the last match and between any two matches; text is also left
    before the first match when the text starts outside [p]. *)
Lemma scan_plus_nonempty p f s segs tl :
  length s ≤ f → s ≠ [] → (∀ c, last s = Some c → p c = false) →
  Re.scan (Re.Plus p) f s = (segs, tl) →
  tl ≠ [] ∧ Forall (λ gm, gm.1 ≠ []) (tail segs) ∧
  ((∀ c, head s = Some c → p c = false) → Forall (λ gm, gm.1 ≠ []) segs).
Proof.
  revert s segs tl. induction f as [|f IH]; intros s segs tl Hf Hs Hlast.
  { destruct s; [done | simpl in Hf; lia]. }
  destruct s as [|c s]; [done|]. simpl in Hf. simpl.
  destruct (p c) eqn:Hc.
  - destruct (match_plus_maximal p c s Hc) as (m & rest & -> & Hcs & Hm & Hmax).
    assert (rest ≠ []) as Hrest.
    { intros ->. rewrite app_nil_r in Hcs. rewrite Hcs in Hlast.
      assert (Forall (λ x, p x = true) (c :: m)) as Hall by by constructor.
      destruct (last (c :: m)) as [x|] eqn:Hx; [|by rewrite last_None in Hx].
      pose proof (proj1 (Forall_forall _ _) Hall x (last_Some_elem_of _ _ Hx))
        as Hpx.
      cbv beta in Hpx. by rewrite (Hlast x eq_refl) in Hpx. }
    assert (length rest ≤ f) as Hlen.
    { apply (f_equal length) in Hcs. rewrite length_app in Hcs. simpl in Hcs. lia. }
    assert (∀ x, last rest = Some x → p x = false) as Hlast'.
    { intros x Hx. apply Hlast. rewrite Hcs.
      destruct rest as [|r0 rest]; [done|].
      by rewrite (last_app_cons (c :: m) rest r0). }
    destruct (Re.scan (Re.Plus p) f rest) as [segs0 tl0] eqn:E.
    intros [= <- <-].
    destruct (IH rest segs0 tl0 Hlen Hrest Hlast' E) as (Htl & _ & Hall).
    split; [done|]. split; [by apply Hall|].
    intros Hhead. by rewrite (Hhead c) in Hc.
  - rewrite (match_plus_miss p c s Hc).
    destruct s as [|c1 s].
    { assert (Re.scan (Re.Plus p) f [] = ([], [])) as -> by by destruct f.
      simpl. intros [= <- <-]. by repeat split. }
    destruct (Re.scan (Re.Plus p) f (c1 :: s)) as [segs0 tl0] eqn:E.
    destruct (IH (c1 :: s) segs0 tl0) as (Htl & Htail & _); [lia | done | | done |].
    { intros x Hx. apply Hlast. by rewrite last_cons_cons. }
    destruct segs0 as [|[g m] segs0]; simpl; intros [= <- <-].
    + by repeat split.
    + split; [done|]. split; [done|]. intros _. by constructor.
Qed.

(** Split on runs of whitespace, a text that neither starts nor ends with
    whitespace has no empty piece. *)
Lemma whitespace_pieces_nonempty s :
  s ≠ [] → trimmed s → Forall (λ t, t ≠ []) (Re.split WHITESPACE s).
Proof.
  intros Hs [Hhead Hlast].
  unfold Re.split. destruct (Re.scan WHITESPACE (length s) s) as [segs tl] eqn:E.
  apply scan_plus_nonempty in E as (Htl & _ & Hall); [|done..].
  apply Forall_app. split; [|by constructor].
  apply Forall_fmap. by apply Hall.
Qed.

(** X5: in the whitespace branch no value is empty and no value holds
    whitespace, unlike in the comma branch, where a value may be empty. *)
Theorem parse_whitespace_values line :
  strip line ≠ [] →
  startswith hash (strip line) = false →
  length (split comma (strip line)) < 5 →
  5 ≤ length (Re.split WHITESPACE (strip line)) →
  ∃ d, parse_line_to_fields isdecimal line = Some d ∧
    ∀ k, k ∈ ALL_COLUMNS →
      ∃ v, d !! k = Some v ∧ v ≠ [] ∧ Forall (λ c, isspace c = false) v.
Proof.
  intros Hne Hhash Hcomma Hws.
  pose proof (whitespace_pieces_nonempty (strip line) Hne (strip_trimmed line))
    as Hnonempty.
  pose proof (split_plus_pieces isspace (strip line)) as Hnospace.
  pose proof Hws as (t0 & t1 & t2 & t3 & t4 & extra & E)%at_least_5.
  fold WHITESPACE in Hnospace. rewrite E in Hnonempty, Hnospace.
  exists {[NAME := t0; HJD := t1; MAG := t2; MAG_ERR := t3; FILTER := t4]}.
  split.
  - unfold parse_line_to_fields. rewrite not_blank_or_comment by done.
    rewrite (proj2 (Nat.leb_gt _ _) Hcomma), E, positional_fields.
    rewrite !(whitespace_piece_strip (strip line))
      by (rewrite E; repeat first [by left | right]).
    done.
  - intros k Hk. rewrite fields_lookup.
    repeat (apply Forall_cons in Hnonempty as [? Hnonempty]).
    repeat (apply Forall_cons in Hnospace as [? Hnospace]).
    unfold ALL_COLUMNS in Hk.
    repeat (apply elem_of_cons in Hk as [->|Hk]);
      [| | | | | by apply elem_of_nil in Hk];
      repeat case_decide; try done; by eexists.
Qed.

(** X6: in the comma branch no value holds a comma. *)
Theorem parse_comma_values line :
  strip line ≠ [] →
  startswith hash (strip line) = false →
  5 ≤ length (split comma (strip line)) →
  ∃ d, parse_line_to_fields isdecimal line = Some d ∧
    ∀ k v, d !! k = Some v → comma ∉ v.
Proof.
  intros Hne Hhash Hparts.
  pose proof (split_no_sep comma (strip line)) as Hnosep.
  pose proof Hparts as (p0 & p1 & p2 & p3 & p4 & extra & E)%at_least_5.
  rewrite E in Hnosep.
  eexists. split.
  - unfold parse_line_to_fields. rewrite not_blank_or_comment by done.
    rewrite E. apply positional_fields.
  - intros k v. rewrite fields_lookup.
    repeat (apply Forall_cons in Hnosep as [? Hnosep]).
    repeat case_decide; intros [= <-] Hc;
      eapply piece_of_elem in Hc; try apply strip_piece; done.
Qed.

End Parser_more.

(** * The reader of a file and the table of its records *)

Section Pipeline.
Context (isdecimal : char → bool).
Import PyStr.

Lemma parse_total line : is_Some (parse_line_to_fields isdecimal line).
Proof.
  destruct (parse_cases isdecimal line)
    as [->|[(p0 & p1 & p2 & p3 & p4 & ->)|(n0 & n1 & n2 & more & _ & ->)]];
    by eexists.
Qed.

Lemma parse_keys line d :
  parse_line_to_fields isdecimal line = Some d → d ≠ ∅ →
  ∀ k, is_Some (d !! k) ↔ k ∈ ALL_COLUMNS.
Proof.
  destruct (parse_cases isdecimal line)
    as [->|[(p0 & p1 & p2 & p3 & p4 & ->)|(n0 & n1 & n2 & more & _ & ->)]];
    intros [= <-] Hd; [done | apply record_keys..].
Qed.

Lemma extract_data_cons raw lines d :
  parse_line_to_fields isdecimal raw = Some d →
  extract_data isdecimal (raw :: lines)
  = (λ out, if bool_decide (d = ∅) then out else d :: out)
    <$> extract_data isdecimal lines.
Proof. intros H. simpl. rewrite H. simpl. by destruct (extract_data _ _). Qed.

(** X7: reading never fails; the rows are the results of parsing the lines,
    in the order of the lines, without the empty ones; every row has
    exactly the five keys. *)
Theorem extract_data_rows lines :
  ∃ ds rows,
    Forall2 (λ line d, parse_line_to_fields isdecimal line = Some d) lines ds ∧
    extract_data isdecimal lines = Some rows ∧
    rows = filter (λ d, d ≠ ∅) ds ∧
    Forall (λ r, r ≠ ∅ ∧ ∀ k, is_Some (r !! k) ↔ k ∈ ALL_COLUMNS) rows.
Proof.
  induction lines as [|raw lines (ds & rows & Hds & Hrows & Hfilter & Hall)].
  - exists [], []. by repeat split.
  - destruct (parse_total raw) as [d Hd].
    exists (d :: ds), (if bool_decide (d = ∅) then rows else d :: rows).
    split; [by constructor|].
    split; [by rewrite (extract_data_cons _ _ d), Hrows|].
    case_bool_decide as Hempty.
    + split; [|done]. by rewrite filter_cons_False by (by intros ?).
    + split; [by rewrite filter_cons_True, Hfilter by done|].
      constructor; [|done]. split; [done|]. by apply (parse_keys raw).
Qed.

(** X8: the rows of two files read one after the other are the rows of
    the first followed by the rows of the second. *)
Theorem extract_data_app lines1 lines2 :
  extract_data isdecimal (lines1 ++ lines2)
  = rows1 ← extract_data isdecimal lines1;
    rows2 ← extract_data isdecimal lines2;
    Some (rows1 ++ rows2).
Proof.
  induction lines1 as [|raw lines1 IH].
  - simpl. by destruct (extract_data isdecimal lines2).
  - destruct (parse_total raw) as [d Hd].
    rewrite <-app_comm_cons, !(extract_data_cons _ _ d) by done. rewrite IH.
    destruct (extract_data isdecimal lines1) as [rows1|]; [|done]. simpl.
    destruct (extract_data isdecimal lines2) as [rows2|]; [|done]. simpl.
    by case_bool_decide.
Qed.

(** X9: no row is read exactly when every line is skipped. *)
Theorem extract_data_nil_iff lines :
  extract_data isdecimal lines = Some [] ↔
  Forall (λ line, parse_line_to_fields isdecimal line = Some ∅) lines.
Proof.
  induction lines as [|raw lines IH]; [done|].
  destruct (parse_total raw) as [d Hd].
  rewrite (extract_data_cons _ _ d), Forall_cons, Hd by done.
  destruct (extract_data isdecimal lines) as [rows|] eqn:E; simpl.
  - case_bool_decide as Hempty.
    + subst d. rewrite <-IH. split; [by intros ? | by intros [_ ?]].
    + split; [done|]. intros [[= ?] _]. done.
  - split; [done|]. intros [_ H]. by apply IH in H.
Qed.

Lemma extract_data_elem lines rows r :
  extract_data isdecimal lines = Some rows → r ∈ rows →
  ∃ line, line ∈ lines ∧ parse_line_to_fields isdecimal line = Some r.
Proof.
  revert rows. induction lines as [|raw lines IH]; intros rows.
  - intros [= <-] ?%elem_of_nil. done.
  - destruct (parse_total raw) as [d Hd].
    rewrite (extract_data_cons _ _ d) by done.
    destruct (extract_data isdecimal lines) as [rows0|]; [|done]. simpl.
    intros [= <-] Hr.
    assert (r = d ∨ r ∈ rows0) as [->|Hin].
    { case_bool_decide; [by right|]. by apply elem_of_cons in Hr. }
    + exists raw. split; [by left | done].
    + destruct (IH rows0 eq_refl Hin) as (line & Hline & Hp).
      exists line. split; [by right | done].
Qed.

End Pipeline.

(** * More on the table formatter *)

Section Formatter_more.
Import PyStr.

Lemma ljust_no_char (c : char) (s : str) (w : nat) :
  c ≠ space → c ∉ s → c ∉ ljust s w.
Proof.
  intros Hc Hs. unfold ljust. rewrite elem_of_app.
  intros [?|[-> _]%elem_of_replicate]; done.
Qed.

Lemma table_line_no_char (c : char) (rows : list dict) (cols : list str)
    (cell : str → str) :
  c ≠ space → Forall (λ col, c ∉ cell col) cols →
  c ∉ table_line rows cols cell.
Proof.
  intros Hc Hcols. unfold table_line.
  induction Hcols as [|col cols Hcol _ IH]; simpl; [by intros ?%elem_of_nil|].
  rewrite elem_of_app. intros [Hin|Hin]; [|done].
  by apply (ljust_no_char c (cell col) (column_width rows col)).
Qed.

Lemma split_table_lines (rows rows0 : list dict) (cols : list str) :
  Forall (λ col, newline ∉ col) cols →
  Forall (λ r, Forall (λ col, newline ∉ get r col) cols) rows →
  split newline
    (join newline
       (table_line rows0 cols id :: ((λ r, table_line rows0 cols (get r)) <$> rows)))
  = table_line rows0 cols id :: ((λ r, table_line rows0 cols (get r)) <$> rows).
Proof.
  intros Hcols Hrows. apply split_join; [done|]. constructor.
  - by apply table_line_no_char.
  - apply Forall_fmap, Forall_forall. intros r Hr.
    apply table_line_no_char; [done|].
    by apply (proj1 (Forall_forall _ _) Hrows).
Qed.

(** X10: when no column name and no value holds a newline, cutting the
    output at its newlines gives the header and the lines of the records
    back: the output has one line more than there are records. *)
Theorem format_table_lines (rows : list dict) (cols : list str) :
  Forall (λ col, newline ∉ col) cols →
  Forall (λ r, Forall (λ col, newline ∉ default [] (r !! col)) cols) rows →
  ∃ out header lines,
    format_table rows cols = Some out ∧
    format_lines rows cols = Some (header :: lines) ∧
    split newline out = header :: lines ∧
    length (split newline out) = S (length rows).
Proof.
  intros Hcols Hrows. unfold format_table. rewrite format_lines_spec.
  eexists _, _, _. split; [done|]. split; [done|].
  pose proof (split_table_lines rows rows cols Hcols Hrows) as Hsplit.
  split; [done|]. rewrite Hsplit. simpl. by rewrite length_fmap.
Qed.

Lemma column_width_ext (rows rows' : list dict) (col : str) :
  Forall2 (λ r r', r !! col = r' !! col) rows rows' →
  column_width rows col = column_width rows' col.
Proof.
  intros H. unfold column_width. do 2 f_equal.
  induction H as [|r r' rows rows' Hr _ IH]; [done|].
  simpl. unfold get at 1 3. by rewrite Hr, IH.
Qed.

(** X11: the output depends on the selected columns of the records only:
    two lists of records that agree on them give the same table. *)
Theorem format_table_selected_only (rows rows' : list dict) (cols : list str) :
  Forall2 (λ r r', ∀ col, col ∈ cols → r !! col = r' !! col) rows rows' →
  format_table rows cols = format_table rows' cols.
Proof.
  intros H. unfold format_table. rewrite !format_lines_spec.
  assert (∀ col, col ∈ cols → column_width rows col = column_width rows' col)
    as Hw.
  { intros col Hcol. apply column_width_ext.
    eapply Forall2_impl; [exact H|]. intros r r' Hr. by apply Hr. }
  assert (∀ cell cell', (∀ col, col ∈ cols → cell col = cell' col) →
            table_line rows cols cell = table_line rows' cols cell') as Hline.
  { intros cell cell' Hcell. unfold table_line. f_equal.
    apply Forall_fmap_ext_1, Forall_forall. intros col Hcol.
    by rewrite Hw, Hcell. }
  rewrite (Hline id id) by done.
  assert (∀ l l' : list dict,
            Forall2 (λ r r', ∀ col, col ∈ cols → r !! col = r' !! col) l l' →
            (λ r, table_line rows cols (get r)) <$> l
            = (λ r, table_line rows' cols (get r)) <$> l') as Hlines.
  { intros l l' Hl. induction Hl as [|r r' l l' Hr _ IH]; [done|].
    cbn [fmap list_fmap]. f_equal; [|exact IH].
    apply Hline. intros col Hcol. unfold get. by rewrite Hr. }
  by rewrite (Hlines rows rows').
Qed.

(** X12: with no record the output is the header alone, every column name
    followed by three spaces, and holds no newline of its own. *)
Theorem format_table_no_rows (cols : list str) :
  format_table [] cols = Some (concat ((λ col, col ++ replicate 3 space) <$> cols)).
Proof.
  unfold format_table. rewrite format_lines_spec. simpl. f_equal.
  unfold table_line. f_equal. apply list_fmap_ext. intros i col _.
  unfold ljust, column_width. simpl.
  by replace (length col + 3 - length col) with 3 by lia.
Qed.

Lemma format_table_no_error_lemma (rows : list dict) (cols : list str) :
  is_Some (format_table rows cols).
Proof. unfold format_table. rewrite format_lines_spec. by eexists. Qed.

End Formatter_more.

(** * From the lines of a file to the table and back *)

Section Pipeline_table.
Context (isdecimal : char → bool).
Import PyStr.

Lemma parse_get_trimmed line d col :
  (∀ c, isdecimal c = true → isspace c = false) →
  parse_line_to_fields isdecimal line = Some d → trimmed (get d col).
Proof.
  intros Hdec Hd. unfold get.
  destruct (d !! col) as [v|] eqn:Hv; [|by split]. simpl.
  destruct (parse_cases isdecimal line)
    as [H|[(p0 & p1 & p2 & p3 & p4 & H)|(n0 & n1 & n2 & more & Hnums & H)]];
    rewrite H in Hd; apply (inj Some) in Hd; subst d.
  - by rewrite lookup_empty in Hv.
  - rewrite fields_lookup in Hv.
    repeat case_decide; simplify_eq; apply strip_trimmed.
  - pose proof (findall_float_tokens isdecimal (strip line)) as Htok.
    rewrite Hnums in Htok.
    apply Forall_cons in Htok as [H0 Htok].
    apply Forall_cons in Htok as [H1 Htok]. apply Forall_cons in Htok as [H2 _].
    rewrite fields_lookup in Hv.
    repeat case_decide; simplify_eq;
      eauto using trimmed_no_space, float_token_no_space.
    all: by split.
Qed.

Lemma trimmed_no_trailing_space (v : str) : trimmed v → no_trailing_space v.
Proof. intros [_ H] c Hc ->. by specialize (H _ Hc). Qed.

(** X13: for the rows read from a file and column names that do not end
    with a space, as the five names of the program, cutting the lines of
    the table at the computed widths and trimming the trailing spaces
    gives the column names and the values of the rows back exactly. *)
Theorem extracted_table_slices lines rows (cols : list str) :
  (∀ c, isdecimal c = true → isspace c = false) →
  extract_data isdecimal lines = Some rows →
  Forall no_trailing_space cols →
  slices_recover_exactly rows cols.
Proof.
  intros Hdec Hrows Hcols.
  destruct (computed_widths rows cols) as (W & HW & Hws).
  exists W, (column_width rows <$> cols). eexists _, _.
  split; [done|]. split; [done|]. split; [apply format_lines_spec|].
  assert (∀ col, col ∈ cols → length (id col) ≤ column_width rows col) as Hid.
  { intros col _. pose proof (column_width_name rows col). simpl. lia. }
  split.
  - unfold table_line.
    rewrite (slices_cells (column_width rows) id cols Hid), rstrip_spaces_cells.
    rewrite (rstrip_spaces_exact id) by done. apply list_fmap_id.
  - apply Forall2_fmap_r, Forall_Forall2_diag, Forall_forall. intros r Hr.
    assert (∀ col, col ∈ cols → length (get r col) ≤ column_width rows col)
      as Hget.
    { intros col _. pose proof (column_width_value rows col r Hr). lia. }
    unfold compose, table_line. cbv beta.
    rewrite (slices_cells (column_width rows) (get r) cols Hget).
    rewrite rstrip_spaces_cells. apply rstrip_spaces_exact.
    apply Forall_forall. intros col _.
    destruct (extract_data_elem isdecimal lines rows r Hrows Hr)
      as (line & _ & Hline).
    by apply trimmed_no_trailing_space, (parse_get_trimmed line).
Qed.

(** [re.split] on runs of whitespace, piece by piece. *)

Lemma scan_ws_miss c s f :
  isspace c = false →
  Re.scan WHITESPACE (S f) (c :: s) = Re.push c (Re.scan WHITESPACE f s).
Proof.
  intros Hc. cbn [Re.scan]. unfold WHITESPACE.
  by rewrite (match_plus_miss isspace c s Hc).
Qed.

Lemma scan_ws_token v rest f :
  Forall (λ c, isspace c = false) v →
  Re.scan WHITESPACE (length v + f) (v ++ rest)
  = foldr Re.push (Re.scan WHITESPACE f rest) v.
Proof.
  induction 1 as [|c v Hc _ IH]; [done|].
  cbn [length Nat.add app foldr]. by rewrite scan_ws_miss, IH.
Qed.

Lemma star_isspace s : Re.star isspace s Some = Some (lstrip s).
Proof.
  induction s as [|c s IH]; [done|]. simpl.
  destruct (isspace c); [by rewrite IH | done].
Qed.

Lemma scan_ws_run w rest f :
  w ≠ [] → Forall (λ c, isspace c = true) w →
  (∀ c, head rest = Some c → isspace c = false) → length rest ≤ f →
  Re.scan WHITESPACE (length w + f) (w ++ rest)
  = let '(segs, tl) := Re.scan WHITESPACE f rest in (([], w) :: segs, tl).
Proof.
  intros Hw Hall Hrest Hf. destruct w as [|c w]; [done|].
  apply Forall_cons in Hall as [Hc Hall].
  cbn [length Nat.add app Re.scan].
  assert (Re.match_ WHITESPACE (c :: w ++ rest) = Some (c :: w, rest)) as ->.
  { unfold Re.match_, WHITESPACE. cbn [Re.run]. rewrite Hc, star_isspace.
    rewrite lstrip_spaces, lstrip_id by done. simpl.
    rewrite length_app.
    replace (S (length w + length rest) - length rest) with (S (length w)) by lia.
    simpl. by rewrite take_app_length. }
  by rewrite (scan_fuel WHITESPACE (length w + f) f rest) by lia.
Qed.

Lemma split_pieces r s : Re.split r s = pieces (Re.scan r (length s) s).
Proof. unfold Re.split, pieces. by destruct (Re.scan r (length s) s). Qed.

Lemma pieces_push c res hd t :
  pieces res = hd :: t → pieces (Re.push c res) = (c :: hd) :: t.
Proof.
  destruct res as [[|[g m] segs] tl]; unfold pieces; simpl; by intros [= <- <-].
Qed.

Lemma pieces_token v res hd t :
  pieces res = hd :: t → pieces (foldr Re.push res v) = (v ++ hd) :: t.
Proof.
  intros H. induction v as [|c v IH]; [done|]. simpl. by apply pieces_push.
Qed.

Lemma pieces_nonempty res : ∃ hd t, pieces res = hd :: t.
Proof. destruct res as [[|[g m] segs] tl]; unfold pieces; simpl; by eexists _, _. Qed.

Lemma split_ws_token v rest hd t :
  Forall (λ c, isspace c = false) v →
  Re.split WHITESPACE rest = hd :: t →
  Re.split WHITESPACE (v ++ rest) = (v ++ hd) :: t.
Proof.
  intros Hv. rewrite !split_pieces, length_app, scan_ws_token by done.
  apply pieces_token.
Qed.

Lemma split_ws_run w rest :
  w ≠ [] → Forall (λ c, isspace c = true) w →
  (∀ c, head rest = Some c → isspace c = false) →
  Re.split WHITESPACE (w ++ rest) = [] :: Re.split WHITESPACE rest.
Proof.
  intros Hw Hall Hrest.
  rewrite !split_pieces, length_app, scan_ws_run by done.
  by destruct (Re.scan WHITESPACE (length rest) rest).
Qed.

(** A token, a run of whitespace, and more text that starts with a token:
    the token is the first piece. *)
Lemma split_ws_token_run v w rest :
  Forall (λ c, isspace c = false) v →
  w ≠ [] → Forall (λ c, isspace c = true) w →
  (∀ c, head rest = Some c → isspace c = false) →
  Re.split WHITESPACE (v ++ w ++ rest) = v :: Re.split WHITESPACE rest.
Proof.
  intros Hv Hw Hall Hrest.
  rewrite (split_ws_token v (w ++ rest) [] (Re.split WHITESPACE rest)) by
    (by try apply split_ws_run).
  by rewrite app_nil_r.
Qed.

Lemma split_ws_single v :
  Forall (λ c, isspace c = false) v → Re.split WHITESPACE v = [v].
Proof.
  intros Hv. rewrite <-(app_nil_r v) at 1.
  rewrite (split_ws_token v [] [] []) by done. by rewrite app_nil_r.
Qed.

Lemma split_single sep (s : str) : sep ∉ s → split sep s = [s].
Proof.
  intros H. apply (split_join sep [s]); [done|]. by constructor.
Qed.

Lemma head_token (v x : str) :
  v ≠ [] → Forall (λ c, isspace c = false) v →
  ∀ c, head (v ++ x) = Some c → isspace c = false.
Proof.
  intros Hv Hall c. destruct v as [|c0 v]; [done|]. simpl. intros [= <-].
  by apply Forall_cons in Hall as [? _].
Qed.

Lemma last_token (x v : str) : v ≠ [] → last (x ++ v) = last v.
Proof. destruct v as [|c v]; [done|]. intros _. apply last_app_cons. Qed.

Lemma space_not_comma (w : str) :
  Forall (λ c, isspace c = true) w → comma ∉ w.
Proof.
  intros H Hin. by pose proof (proj1 (Forall_forall _ _) H comma Hin).
Qed.

(** Tokens and separators: a first token [v], then pairs of a run of
    whitespace and a token; the text is [v ++ flat rest]. *)

Lemma split_ws_tokens (v : str) (rest : list (str * str)) :
  Forall (λ t, t ≠ [] ∧ Forall (λ c, isspace c = false) t) (v :: rest.*2) →
  Forall (λ w, w ≠ [] ∧ Forall (λ c, isspace c = true) w) rest.*1 →
  Re.split WHITESPACE (v ++ flat rest) = v :: rest.*2.
Proof.
  revert v. induction rest as [|[w v'] rest IH]; intros v Hv Hw.
  - apply Forall_cons in Hv as [[_ Hv] _].
    unfold flat. simpl. rewrite app_nil_r. by apply split_ws_single.
  - apply Forall_cons in Hv as [[_ Hv] Hrest].
    pose proof Hrest as [[Hne' Hv'] _]%Forall_cons.
    apply Forall_cons in Hw as [[Hwne Hw] Hws].
    rewrite flat_cons.
    rewrite (split_ws_token_run v w (v' ++ flat rest))
      by (try done; by apply head_token).
    cbn [fmap list_fmap snd]. f_equal. by apply IH.
Qed.

Lemma tokens_last (v : str) (rest : list (str * str)) :
  Forall (λ t, t ≠ [] ∧ Forall (λ c, isspace c = false) t) (v :: rest.*2) →
  ∀ c, last (v ++ flat rest) = Some c → isspace c = false.
Proof.
  revert v. induction rest as [|[w v'] rest IH]; intros v Hv c.
  - apply Forall_cons in Hv as [[_ Hv] _].
    unfold flat. simpl. rewrite app_nil_r. intros Hc%last_Some_elem_of.
    by apply (proj1 (Forall_forall _ _) Hv).
  - apply Forall_cons in Hv as [_ Hrest].
    pose proof Hrest as [[Hne' _] _]%Forall_cons.
    rewrite flat_cons, !(assoc_L (++)), <-(assoc_L (++) _ v' (flat rest)).
    rewrite last_token by (by destruct v'). by apply IH.
Qed.

Lemma tokens_no_comma (v : str) (rest : list (str * str)) :
  Forall (λ t, comma ∉ t) (v :: rest.*2) →
  Forall (λ w, Forall (λ c, isspace c = true) w) rest.*1 →
  comma ∉ v ++ flat rest.
Proof.
  revert v. induction rest as [|[w v'] rest IH]; intros v Hv Hw.
  - apply Forall_cons in Hv as [Hv _]. unfold flat. simpl. by rewrite app_nil_r.
  - apply Forall_cons in Hv as [Hv Hrest]. apply Forall_cons in Hw as [Hw Hws].
    rewrite flat_cons, !elem_of_app.
    pose proof (space_not_comma w Hw). pose proof (IH v' Hrest Hws) as Hc.
    rewrite elem_of_app in Hc. tauto.
Qed.

(** The whitespace branch, from what the two splits give. *)
Lemma parse_whitespace_branch line t0 t1 t2 t3 t4 extra :
  strip line ≠ [] → startswith hash (strip line) = false →
  length (split comma (strip line)) < 5 →
  Re.split WHITESPACE (strip line) = t0 :: t1 :: t2 :: t3 :: t4 :: extra →
  parse_line_to_fields isdecimal line
  = Some {[NAME := strip t0; HJD := strip t1; MAG := strip t2;
           MAG_ERR := strip t3; FILTER := strip t4]}.
Proof.
  intros Hne Hhash Hcomma Hws. unfold parse_line_to_fields.
  rewrite not_blank_or_comment by done.
  rewrite (proj2 (Nat.leb_gt _ _) Hcomma), Hws. apply positional_fields.
Qed.

(** X14: a line of five tokens or more, each without whitespace and
    without comma, the first of which does not start with [#], with
    whitespace between them and around them, is parsed into the record of
    the first five tokens, whatever the widths of the gaps are. *)
Theorem parse_tokens (l r v0 s0 v1 s1 v2 s2 v3 s3 v4 : str)
    (more : list (str * str)) :
  Forall (λ t, t ≠ [] ∧ Forall (λ c, isspace c = false) t ∧ comma ∉ t)
         (v0 :: v1 :: v2 :: v3 :: v4 :: more.*2) →
  Forall (λ w, w ≠ [] ∧ Forall (λ c, isspace c = true) w)
         (s0 :: s1 :: s2 :: s3 :: more.*1) →
  Forall (λ c, isspace c = true) l → Forall (λ c, isspace c = true) r →
  startswith hash v0 = false →
  parse_line_to_fields isdecimal
    (l ++ (v0 ++ flat ((s0, v1) :: (s1, v2) :: (s2, v3) :: (s3, v4) :: more))
       ++ r)
  = Some {[NAME := v0; HJD := v1; MAG := v2; MAG_ERR := v3; FILTER := v4]}.
Proof.
  intros Hv Hs Hl Hr Hhash.
  set (rest := (s0, v1) :: (s1, v2) :: (s2, v3) :: (s3, v4) :: more).
  assert (Forall (λ t, t ≠ [] ∧ Forall (λ c, isspace c = false) t)
                 (v0 :: rest.*2)) as Htok.
  { eapply Forall_impl; [exact Hv|]. by intros t (? & ? & _). }
  assert (Forall (λ w, w ≠ [] ∧ Forall (λ c, isspace c = true) w) rest.*1)
    as Hsep by done.
  assert (trimmed (v0 ++ flat rest)) as HM.
  { split; [|by apply tokens_last].
    pose proof Htok as [[N0 W0] _]%Forall_cons. by apply head_token. }
  assert (strip (l ++ (v0 ++ flat rest) ++ r) = v0 ++ flat rest) as Hstrip
    by (by rewrite strip_pad, strip_id).
  assert (comma ∉ v0 ++ flat rest) as Hcomma.
  { apply tokens_no_comma.
    - eapply Forall_impl; [exact Hv|]. by intros t (_ & _ & ?).
    - eapply Forall_impl; [exact Hsep|]. by intros t [_ ?]. }
  pose proof Htok as [[N0 _] _]%Forall_cons.
  rewrite (parse_whitespace_branch _ v0 v1 v2 v3 v4 more.*2); rewrite ?Hstrip.
  - repeat (apply Forall_cons in Htok as [[_ ?] Htok]).
    by rewrite !strip_id by by apply trimmed_no_space.
  - by destruct v0.
  - by destruct v0.
  - rewrite split_single by done. simpl. lia.
  - by rewrite split_ws_tokens.
Qed.

Lemma ljust_pad (v : str) (w : nat) :
  length v + 3 ≤ w →
  ∃ pad, ljust v w = v ++ pad ∧ pad ≠ [] ∧ Forall (λ c, isspace c = true) pad.
Proof.
  intros H. exists (replicate (w - length v) space). split; [done|]. split.
  - destruct (w - length v) eqn:E; [lia | done].
  - apply Forall_forall. by intros c [-> _]%elem_of_replicate.
Qed.

(** X15: a record of five values without whitespace and without comma,
    the first of which does not start with [#], written as a line of the
    table with all five columns, is read back by the parser as it was. *)
Theorem table_line_reparses (rows : list dict) (i : nat)
    (v0 v1 v2 v3 v4 : str) :
  rows !! i
  = Some {[NAME := v0; HJD := v1; MAG := v2; MAG_ERR := v3; FILTER := v4]} →
  Forall (λ v, v ≠ [] ∧ Forall (λ c, isspace c = false) v ∧ comma ∉ v)
         [v0; v1; v2; v3; v4] →
  startswith hash v0 = false →
  ∃ header lines line,
    format_lines rows ALL_COLUMNS = Some (header :: lines) ∧
    lines !! i = Some line ∧
    parse_line_to_fields isdecimal line
    = Some {[NAME := v0; HJD := v1; MAG := v2; MAG_ERR := v3; FILTER := v4]}.
Proof.
  intros Hi Hv Hhash.
  set (r := ({[NAME := v0; HJD := v1; MAG := v2; MAG_ERR := v3;
               FILTER := v4]} : dict)) in *.
  rewrite format_lines_spec. eexists _, _, _. split; [done|].
  split; [by rewrite list_lookup_fmap, Hi|].
  assert (r ∈ rows) as Hr by (by eapply list_elem_of_lookup_2).
  assert (get r NAME = v0 ∧ get r HJD = v1 ∧ get r MAG = v2 ∧
          get r MAG_ERR = v3 ∧ get r FILTER = v4) as (G0 & G1 & G2 & G3 & G4).
  { unfold get, r. by rewrite !fields_lookup. }
  destruct (ljust_pad (get r NAME) (column_width rows NAME)
              (column_width_value rows NAME r Hr)) as (s0 & L0 & E0 & A0).
  destruct (ljust_pad (get r HJD) (column_width rows HJD)
              (column_width_value rows HJD r Hr)) as (s1 & L1 & E1 & A1).
  destruct (ljust_pad (get r MAG) (column_width rows MAG)
              (column_width_value rows MAG r Hr)) as (s2 & L2 & E2 & A2).
  destruct (ljust_pad (get r MAG_ERR) (column_width rows MAG_ERR)
              (column_width_value rows MAG_ERR r Hr)) as (s3 & L3 & E3 & A3).
  destruct (ljust_pad (get r FILTER) (column_width rows FILTER)
              (column_width_value rows FILTER r Hr)) as (s4 & L4 & E4 & A4).
  unfold table_line, ALL_COLUMNS. cbn [fmap list_fmap concat].
  rewrite L0, L1, L2, L3, L4, G0, G1, G2, G3, G4, app_nil_r.
  apply Forall_cons in Hv as [(N0 & W0 & C0) Hv].
  apply Forall_cons in Hv as [(N1 & W1 & C1) Hv].
  apply Forall_cons in Hv as [(N2 & W2 & C2) Hv].
  apply Forall_cons in Hv as [(N3 & W3 & C3) Hv].
  apply Forall_cons in Hv as [(N4 & W4 & C4) _].
  set (rest := [(s0, v1); (s1, v2); (s2, v3); (s3, v4)]).
  assert ((v0 ++ s0) ++ (v1 ++ s1) ++ (v2 ++ s2) ++ (v3 ++ s3) ++ v4 ++ s4
          = [] ++ (v0 ++ flat rest) ++ s4) as ->.
  { unfold rest, flat. simpl. by rewrite <-!(assoc_L (++)). }
  assert (trimmed (v0 ++ flat rest)) as HM.
  { split; [by apply head_token | apply tokens_last; by repeat constructor]. }
  assert (strip ([] ++ (v0 ++ flat rest) ++ s4) = v0 ++ flat rest) as Hstrip
    by (by rewrite strip_pad, strip_id).
  assert (comma ∉ v0 ++ flat rest) as Hcomma
    by (apply tokens_no_comma; by repeat constructor).
  rewrite (parse_whitespace_branch _ v0 v1 v2 v3 v4 []); rewrite ?Hstrip.
  - by rewrite !strip_id by by apply trimmed_no_space.
  - by destruct v0.
  - by destruct v0.
  - rewrite split_single by done. simpl. lia.
  - rewrite split_ws_tokens; [done | by repeat constructor..].
Qed.

(** X19: when no line of the file holds a newline apart from the
    whitespace at its ends, as the lines that iterating over a file gives,
    and no column name holds one, the table of the rows read has one line
    for the header and one for each row. *)
Theorem extracted_table_line_count lines rows (cols : list str) :
  extract_data isdecimal lines = Some rows →
  Forall (λ line, newline ∉ strip line) lines →
  Forall (λ col, newline ∉ col) cols →
  ∃ out, format_table rows cols = Some out ∧
    length (split newline out) = S (length rows).
Proof.
  intros Hrows Hlines Hcols. unfold format_table. rewrite format_lines_spec.
  eexists. split; [done|].
  rewrite split_table_lines; [simpl; by rewrite length_fmap | done |].
  apply Forall_forall. intros r Hr. apply Forall_forall. intros col _.
  destruct (extract_data_elem isdecimal lines rows r Hrows Hr)
    as (line & Hline & Hparse).
  unfold get. destruct (r !! col) as [v|] eqn:Hv; [|by intros ?%elem_of_nil].
  simpl. intros Hnl.
  apply (proj1 (Forall_forall _ _) Hlines line Hline).
  eapply piece_of_elem; [|exact Hnl]. by eapply parse_value_piece.
Qed.

End Pipeline_table.

(** * The window: the default file name and the extraction *)

Section Window_facts.
Context (isdecimal : char → bool) (w : world).
Import PyStr.

Lemma strip_nil_iff s : strip s = [] ↔ Forall (λ c, isspace c = true) s.
Proof.
  split; [|apply strip_spaces].
  intros H. destruct (strip_spec s) as (l & r & Hs & Hl & Hr & _).
  rewrite H in Hs. rewrite Hs. by apply Forall_app.
Qed.

Lemma str_replace_gone (old new : char) (s : str) :
  old ≠ new → old ∉ str_replace old new s.
Proof.
  intros Hne. unfold str_replace.
  intros (c & Hc & _)%list_elem_of_fmap.
  destruct (N.eqb_spec c old); congruence.
Qed.

(** The default file name with the suffix worked out. *)
Lemma default_filename_eq self in_path :
  _default_filename w self in_path
  = str_replace space underscore (upper w (stem w in_path)) ++ py "_" ++
    today w ++
    (if bool_decide (strip (aavso_edit self) ≠ []) then py "_AAVSO.txt"
     else if bool_decide (strip (mpc_edit self) ≠ []) then py "_MPC.txt"
     else py ".txt").
Proof.
  unfold _default_filename. repeat case_bool_decide; reflexivity.
Qed.

Lemma no_space_literal (l : str) :
  forallb (λ c, negb (c =? space)%N) l = true → space ∉ l.
Proof.
  induction l as [|c l IH]; simpl; [by intros _ ?%elem_of_nil|].
  intros [Hc Hl]%andb_true_iff [Heq|Hin]%elem_of_cons; [|by apply IH].
  by rewrite <-Heq in Hc.
Qed.

(** X16: the default file name holds no space when the date holds none,
    whatever the name of the input file and the codes are. *)
Theorem default_filename_no_space self in_path :
  space ∉ today w → space ∉ _default_filename w self in_path.
Proof.
  intros Hdate. rewrite default_filename_eq, !elem_of_app.
  pose proof (str_replace_gone space underscore (upper w (stem w in_path))
                ltac:(done)) as Hbase.
  pose proof (no_space_literal (py "_") eq_refl).
  pose proof (no_space_literal (py "_AAVSO.txt") eq_refl).
  pose proof (no_space_literal (py "_MPC.txt") eq_refl).
  pose proof (no_space_literal (py ".txt") eq_refl).
  repeat case_bool_decide; tauto.
Qed.

(** X17: the suffix of the default file name: [_AAVSO] when the AAVSO code
    holds a character that is not whitespace, whatever the MPC code is;
    else [_MPC] when the MPC code holds one; else none. *)
Theorem default_filename_suffix self in_path :
  ∃ base,
    base = str_replace space underscore (upper w (stem w in_path)) ∧
    (¬ Forall (λ c, isspace c = true) (aavso_edit self) →
     _default_filename w self in_path
     = base ++ py "_" ++ today w ++ py "_AAVSO.txt") ∧
    (Forall (λ c, isspace c = true) (aavso_edit self) →
     ¬ Forall (λ c, isspace c = true) (mpc_edit self) →
     _default_filename w self in_path
     = base ++ py "_" ++ today w ++ py "_MPC.txt") ∧
    (Forall (λ c, isspace c = true) (aavso_edit self) →
     Forall (λ c, isspace c = true) (mpc_edit self) →
     _default_filename w self in_path = base ++ py "_" ++ today w ++ py ".txt").
Proof.
  eexists. split; [done|]. rewrite default_filename_eq.
  rewrite <-!strip_nil_iff. split_and!.
  - intros Ha. by rewrite bool_decide_eq_true_2.
  - intros Ha Hm. by rewrite bool_decide_eq_false_2, bool_decide_eq_true_2 by auto.
  - intros Ha Hm. by rewrite !bool_decide_eq_false_2 by auto.
Qed.

Lemma filter_sublist_nodup (P : str → bool) :
  filter (λ c, P c = true) ALL_COLUMNS `sublist_of` ALL_COLUMNS ∧
  NoDup (filter (λ c, P c = true) ALL_COLUMNS).
Proof.
  split; [apply sublist_filter|]. apply NoDup_filter.
  unfold ALL_COLUMNS. repeat (apply NoDup_cons; split);
    [..|apply NoDup_nil_2];
    intros H; repeat (apply elem_of_cons in H as [H|H]; [done|]);
    by apply elem_of_nil in H.
Qed.

(** X18: no exception leaves [on_extract]; when it saves a file, the path
    is not empty and the text is the table of the rows read from the input
    file, of which there is at least one, for the checked columns, of
    which there is at least one, in the order of [ALL_COLUMNS] and without
    repetition. *)
Theorem on_extract_saved self :
  on_extract isdecimal w self ≠ raised ∧
  ∀ out_path text,
    on_extract isdecimal w self = saved out_path text →
    ∃ lines rows cols,
      isfile w (strip (input_edit self)) = true ∧
      read w (strip (input_edit self)) = Some lines ∧
      extract_data isdecimal lines = Some rows ∧ rows ≠ [] ∧
      cols = filter (λ c, checks self c = true) ALL_COLUMNS ∧ cols ≠ [] ∧
      cols `sublist_of` ALL_COLUMNS ∧ NoDup cols ∧
      format_table rows cols = Some text ∧
      out_path ≠ [] ∧ write w out_path text = true.
Proof.
  unfold on_extract.
  destruct (isfile w (strip (input_edit self))) eqn:Hfile; cbn [negb]; [|done].
  destruct (read w (strip (input_edit self))) as [lines|] eqn:Hread; [|done].
  destruct (extract_data isdecimal lines) as [rows|] eqn:Hdata; [|done].
  case_bool_decide as Hrows; [done|].
  case_bool_decide as Hcols; [done|].
  destruct (format_table_no_error_lemma rows
              (filter (λ c, checks self c = true) ALL_COLUMNS)) as [text Htext].
  rewrite Htext.
  case_bool_decide as Hpath; [done|].
  destruct (write w _ text) eqn:Hwrite; [|done].
  split; [done|]. intros out_path text' [= <- <-].
  exists lines, rows, (filter (λ c, checks self c = true) ALL_COLUMNS).
  destruct (filter_sublist_nodup (checks self)) as [Hsub Hnodup].
  split_and!; done.
Qed.

End Window_facts.

(** * The numeric tokens *)

Section Tokens.
Context (isdecimal : char → bool).
Import PyStr.

Lemma digits_has_digit t :
  digits isdecimal t → ∃ c, c ∈ t ∧ isdecimal c = true.
Proof.
  intros [Hne Hall]. destruct t as [|c t]; [done|].
  exists c. split; [by left|]. by apply Forall_cons in Hall as [? _].
Qed.

Lemma float_token_has_digit t :
  float_token isdecimal t → ∃ c, c ∈ t ∧ isdecimal c = true.
Proof.
  intros (sg & m & e & _ & Hm & _ & ->).
  destruct Hm as [(i & f & (c & Hc & Hd)%digits_has_digit & _ & ->)
                 |(d & (c & Hc & Hd)%digits_has_digit & ->)];
    exists c; (split; [|done]); rewrite !elem_of_app, ?elem_of_cons; auto.
Qed.

Lemma digit_is_token c : isdecimal c = true → float_token isdecimal [c].
Proof.
  intros Hc. exists [], [c], []. split; [by left|]. split; [|by split; [left|]].
  left. exists [c], []. split; [|by split; [left|]].
  split; [done | by repeat constructor].
Qed.

(** X20: the scan for numeric tokens finds nothing exactly in the texts
    that hold no decimal digit. *)
Theorem findall_nil_iff s :
  Re.findall (FLOAT_TOKEN isdecimal) s = [] ↔
  Forall (λ c, isdecimal c = false) s.
Proof.
  split.
  - intros Hnil.
    destruct (findall_in_order (FLOAT_TOKEN isdecimal) s)
      as (segs & tl & Hsegs & Hs & _ & Hleft).
    specialize (Hleft (FLOAT_TOKEN_not_empty isdecimal)).
    rewrite Hnil in Hsegs. destruct segs; [|done]. simpl in Hleft, Hs. subst tl.
    apply Forall_forall. intros c Hc.
    destruct (isdecimal c) eqn:Hd; [|done].
    apply list_elem_of_split in Hc as (g1 & g2 & ->).
    destruct (Hleft g1 (c :: g2) [c] g2); [done | done | by rewrite app_nil_r |].
    by apply FLOAT_TOKEN_grammar, digit_is_token.
  - intros Hall.
    destruct (Re.findall (FLOAT_TOKEN isdecimal) s) as [|t ts] eqn:E; [done|].
    assert (t ∈ Re.findall (FLOAT_TOKEN isdecimal) s) as Ht
      by (rewrite E; by left).
    pose proof (proj1 (Forall_forall _ _) (findall_float_tokens isdecimal s) t Ht)
      as (c & Hc & Hd)%float_token_has_digit.
    apply findall_piece in Ht.
    pose proof (proj1 (Forall_forall _ _) Hall c (piece_of_elem _ _ _ Ht Hc)) as Hn.
    congruence.
Qed.

Lemma float_token_alphabet t :
  float_token isdecimal t →
  Forall (λ c, isdecimal c = true ∨ c ∈ py "+-.eE") t.
Proof.
  intros (sg & m & e & Hsg & Hm & He & ->).
  assert (∀ d, Forall (λ c, isdecimal c = true) d →
               Forall (λ c, isdecimal c = true ∨ c ∈ py "+-.eE") d) as Hd.
  { intros d Hd. eapply Forall_impl; [exact Hd|]. by left. }
  assert (∀ c, c ∈ py "+-.eE" → isdecimal c = true ∨ c ∈ py "+-.eE") as Hin
    by (by right).
  assert (∀ sg, opt_sign sg →
                Forall (λ c, isdecimal c = true ∨ c ∈ py "+-.eE") sg) as Hs.
  { intros ? [-> | [-> | ->]]; repeat constructor; apply Hin;
      repeat first [by left | right]. }
  rewrite !Forall_app. split_and!.
  - by apply Hs.
  - destruct Hm as [(i & f & [_ Hi] & Hf & ->)|(d & [_ Hd'] & ->)].
    + rewrite Forall_app. split; [by apply Hd|].
      destruct Hf as [->|(d & Hd' & ->)]; [done|].
      constructor; [|by apply Hd]. apply Hin. repeat first [by left | right].
    + constructor; [|by apply Hd]. apply Hin. repeat first [by left | right].
  - destruct He as [->|(c & sg' & d & Hc & Hsg' & [_ Hd'] & ->)]; [done|].
    constructor.
    + apply Hin. destruct Hc as [[= ->]|[= ->]]; repeat first [by left | right].
    + rewrite Forall_app. split; [by apply Hs | by apply Hd].
Qed.

(** X21: in the numeric fallback, HJD, MAG and MAG_ERR each hold a decimal
    digit and nothing but decimal digits, signs, dots and the letters [e]
    and [E]; NAME and FILTER are empty. *)
Theorem parse_fallback_values line :
  strip line ≠ [] →
  startswith hash (strip line) = false →
  length (split comma (strip line)) < 5 →
  length (Re.split WHITESPACE (strip line)) < 5 →
  3 ≤ length (Re.findall (FLOAT_TOKEN isdecimal) (strip line)) →
  ∃ d, parse_line_to_fields isdecimal line = Some d ∧
    d !! NAME = Some [] ∧ d !! FILTER = Some [] ∧
    ∀ k, k ∈ DEFAULT_COLUMNS →
      ∃ v, d !! k = Some v ∧
        (∃ c, c ∈ v ∧ isdecimal c = true) ∧
        Forall (λ c, isdecimal c = true ∨ c ∈ py "+-.eE") v.
Proof.
  intros Hne Hhash Hcomma Hws Hnums.
  destruct (Re.findall (FLOAT_TOKEN isdecimal) (strip line))
    as [|n0 [|n1 [|n2 more]]] eqn:E; simpl in Hnums; try lia.
  pose proof (findall_float_tokens isdecimal (strip line)) as Htok.
  rewrite E in Htok.
  apply Forall_cons in Htok as [H0 Htok]. apply Forall_cons in Htok as [H1 Htok].
  apply Forall_cons in Htok as [H2 _].
  exists {[NAME := []; HJD := n0; MAG := n1; MAG_ERR := n2; FILTER := []]}.
  split.
  - unfold parse_line_to_fields. rewrite not_blank_or_comment by done.
    rewrite (proj2 (Nat.leb_gt _ _) Hcomma), (proj2 (Nat.leb_gt _ _) Hws).
    rewrite E. simpl. by rewrite dict_literal_fields.
  - rewrite !fields_lookup. split; [done|]. split; [done|].
    intros k Hk. unfold DEFAULT_COLUMNS in Hk.
    repeat (apply elem_of_cons in Hk as [->|Hk]);
      [| | | by apply elem_of_nil in Hk];
      eexists; (split; [done|]);
      auto using float_token_has_digit, float_token_alphabet.
Qed.

End Tokens.

(** * The scenarios of the specification *)

Lemma ascii_digit_not_space c :
  ascii_digit c = true → PyStr.isspace c = false.
Proof.
  unfold ascii_digit. intros [H1 H2]%andb_true_iff.
  apply N.leb_le in H1, H2.
  assert (c ∈ [48; 49; 50; 51; 52; 53; 54; 55; 56; 57]%N) as Hc.
  { destruct c as [|p]; [lia|].
    do 6 (destruct p as [p|p|]; try lia); set_solver. }
  repeat (apply elem_of_cons in Hc as [->|Hc]; [reflexivity|]).
  by apply elem_of_nil in Hc.
Qed.

Example parse_csv_scenario :
  parse_line_to_fields ascii_digit (py "V1234,2459000.123,12.345,0.012,V")
  = Some {[NAME := py "V1234"; HJD := py "2459000.123"; MAG := py "12.345";
           MAG_ERR := py "0.012"; FILTER := py "V"]}.
Proof. vm_compute. reflexivity. Qed.

Example parse_whitespace_scenario :
  parse_line_to_fields ascii_digit (py "obs 2459000.5 12.3 0.05 R")
  = Some {[NAME := py "obs"; HJD := py "2459000.5"; MAG := py "12.3";
           MAG_ERR := py "0.05"; FILTER := py "R"]}.
Proof. vm_compute. reflexivity. Qed.

Example parse_fallback_scenario :
  parse_line_to_fields ascii_digit (py "noise 2459000.5 12.3 0.05")
  = Some {[NAME := []; HJD := py "2459000.5"; MAG := py "12.3";
           MAG_ERR := py "0.05"; FILTER := []]}.
Proof. vm_compute. reflexivity. Qed.

Example parse_empty_field_scenario :
  parse_line_to_fields ascii_digit (py "A,,12.3,0.05,R")
  = Some {[NAME := py "A"; HJD := []; MAG := py "12.3";
           MAG_ERR := py "0.05"; FILTER := py "R"]}.
Proof. vm_compute. reflexivity. Qed.

Example extract_comments_scenario :
  extract_data ascii_digit [py "# header"; []; py "   "; py "#1,2,3,4,5"]
  = Some [].
Proof. vm_compute. reflexivity. Qed.

Example findall_scenario :
  Re.findall (FLOAT_TOKEN ascii_digit) (py "a-1.5e+3 .5 1. 1e 1e+ +-3 ..2 12e5x")
  = [py "-1.5e+3"; py ".5"; py "1."; py "1"; py "1"; py "-3"; py ".2"; py "12e5"].
Proof. vm_compute. reflexivity. Qed.

Example format_scenario :
  format_table
    [{[NAME := py "V1234"; HJD := py "2459000.123"; MAG := py "12.345";
       MAG_ERR := py "0.012"; FILTER := py "V"]}]
    [HJD; MAG; MAG_ERR]
  = Some (py "HJD           MAG      MAG_ERR   " ++ newline ::
          py "2459000.123   12.345   0.012     ").
Proof. vm_compute. reflexivity. Qed.

(** * The theorems at concrete lines *)

Lemma parse_comma_fields_witness :
  parse_line_to_fields ascii_digit
    (py "  V1234 , 2459000.123,12.345 ,0.012, V ,extra, more  ")
  = Some {[NAME := py "V1234"; HJD := py "2459000.123"; MAG := py "12.345";
           MAG_ERR := py "0.012"; FILTER := py "V"]}.
Proof.
  apply (parse_comma_fields ascii_digit
           (py "  V1234 , 2459000.123,12.345 ,0.012, V ,extra, more  ")
           (py "V1234 ") (py " 2459000.123") (py "12.345 ") (py "0.012")
           (py " V ") [py "extra"; py " more"]).
  - vm_compute. discriminate.
  - reflexivity.
  - reflexivity.
Defined.

Lemma parse_whitespace_fields_witness :
  parse_line_to_fields ascii_digit (py " obs   2459000.5" ++ 0x09%N :: py "12.3 0.05 R x,y ")
  = Some {[NAME := py "obs"; HJD := py "2459000.5"; MAG := py "12.3";
           MAG_ERR := py "0.05"; FILTER := py "R"]}.
Proof.
  apply (parse_whitespace_fields ascii_digit
           (py " obs   2459000.5" ++ 0x09%N :: py "12.3 0.05 R x,y ")
           (py "obs") (py "2459000.5") (py "12.3") (py "0.05") (py "R")
           [py "x,y"]).
  - vm_compute. discriminate.
  - reflexivity.
  - vm_compute. lia.
  - reflexivity.
Defined.

Lemma parse_numeric_fallback_witness :
  parse_line_to_fields ascii_digit (py "noise 2459000.5 12.3;0.05;7")
  = Some {[NAME := []; HJD := py "2459000.5"; MAG := py "12.3";
           MAG_ERR := py "0.05"; FILTER := []]} ∧
  float_token ascii_digit (py "2459000.5") ∧
  float_token ascii_digit (py "12.3") ∧
  float_token ascii_digit (py "0.05") ∧
  ∃ g0 g1 g2 rest,
    PyStr.strip (py "noise 2459000.5 12.3;0.05;7")
    = g0 ++ py "2459000.5" ++ g1 ++ py "12.3" ++ g2 ++ py "0.05" ++ rest ∧
    token_free ascii_digit g0
      (py "2459000.5" ++ g1 ++ py "12.3" ++ g2 ++ py "0.05" ++ rest) ∧
    token_free ascii_digit g1 (py "12.3" ++ g2 ++ py "0.05" ++ rest) ∧
    token_free ascii_digit g2 (py "0.05" ++ rest).
Proof.
  apply (parse_numeric_fallback ascii_digit (py "noise 2459000.5 12.3;0.05;7")
           (py "2459000.5") (py "12.3") (py "0.05") [py "7"]).
  - vm_compute. discriminate.
  - reflexivity.
  - vm_compute. lia.
  - vm_compute. lia.
  - reflexivity.
Defined.

Lemma parse_blank_or_comment_witness :
  parse_line_to_fields ascii_digit (py "  # V1,2459000.1,12.3,0.05,R") = Some ∅.
Proof.
  apply (parse_blank_or_comment ascii_digit (py "  # V1,2459000.1,12.3,0.05,R")).
  right; right. exists (py "  "), (py " V1,2459000.1,12.3,0.05,R").
  split; [by repeat constructor | reflexivity].
Defined.

Lemma parse_values_trimmed_witness : trimmed (py "2459000.5").
Proof.
  apply (parse_values_trimmed ascii_digit (py "noise 2459000.5 12.3 0.05")
           {[NAME := []; HJD := py "2459000.5"; MAG := py "12.3";
             MAG_ERR := py "0.05"; FILTER := []]}
           ascii_digit_not_space) with (k := HJD).
  - vm_compute. reflexivity.
  - reflexivity.
Defined.

(** * The further properties at concrete inputs *)

Ltac decide_it := apply (bool_decide_unpack _); vm_compute; exact I.

Lemma parse_ignores_padding_witness :
  parse_line_to_fields ascii_digit (py "  " ++ py "a,b,c,d,e" ++ [newline])
  = parse_line_to_fields ascii_digit (py "a,b,c,d,e").
Proof.
  apply (parse_ignores_padding ascii_digit (py "a,b,c,d,e") (py "  ") [newline]);
    by repeat constructor.
Defined.

Lemma parse_values_verbatim_witness :
  piece_of (py "12.3") (PyStr.strip (py " V1 , 2459000.5, 12.3 ,0.05,R ")) ∧
  piece_of (py "12.3") (py " V1 , 2459000.5, 12.3 ,0.05,R ").
Proof.
  apply (parse_values_verbatim ascii_digit (py " V1 , 2459000.5, 12.3 ,0.05,R ")
           {[NAME := py "V1"; HJD := py "2459000.5"; MAG := py "12.3";
             MAG_ERR := py "0.05"; FILTER := py "R"]} MAG (py "12.3")).
  - vm_compute. reflexivity.
  - reflexivity.
Defined.

Lemma parse_whitespace_values_witness :
  ∃ d, parse_line_to_fields ascii_digit (py "obs 2459000.5 12.3 0.05 R") = Some d ∧
    ∀ k, k ∈ ALL_COLUMNS →
      ∃ v, d !! k = Some v ∧ v ≠ [] ∧ Forall (λ c, PyStr.isspace c = false) v.
Proof.
  apply (parse_whitespace_values ascii_digit (py "obs 2459000.5 12.3 0.05 R")).
  - vm_compute. discriminate.
  - reflexivity.
  - vm_compute. lia.
  - vm_compute. lia.
Defined.

Lemma parse_comma_values_witness :
  ∃ d, parse_line_to_fields ascii_digit (py "V1,2459000.5,,0.05,R x") = Some d ∧
    ∀ k v, d !! k = Some v → comma ∉ v.
Proof.
  apply (parse_comma_values ascii_digit (py "V1,2459000.5,,0.05,R x")).
  - vm_compute. discriminate.
  - reflexivity.
  - vm_compute. lia.
Defined.

Lemma format_table_lines_witness :
  ∃ out header lines,
    format_table [{[HJD := py "1.5"]}; ∅] [HJD; MAG] = Some out ∧
    format_lines [{[HJD := py "1.5"]}; ∅] [HJD; MAG] = Some (header :: lines) ∧
    PyStr.split newline out = header :: lines ∧
    length (PyStr.split newline out) = 3.
Proof.
  apply (format_table_lines [{[HJD := py "1.5"]}; ∅] [HJD; MAG]); decide_it.
Defined.

Lemma format_table_selected_only_witness :
  format_table [{[NAME := py "V1"; HJD := py "1.5"]}] [HJD]
  = format_table [{[HJD := py "1.5"]}] [HJD].
Proof.
  apply (format_table_selected_only
           [{[NAME := py "V1"; HJD := py "1.5"]}] [{[HJD := py "1.5"]}] [HJD]).
  constructor; [|constructor].
  intros col Hcol. apply list_elem_of_singleton in Hcol. subst col.
  vm_compute. reflexivity.
Defined.

Lemma extracted_table_slices_witness :
  slices_recover_exactly
    [{[NAME := py "V1"; HJD := py "2459000.5"; MAG := py "12.3";
       MAG_ERR := py "0.05"; FILTER := py "R"]}]
    DEFAULT_COLUMNS.
Proof.
  apply (extracted_table_slices ascii_digit
           [py "# log"; py " V1 , 2459000.5, 12.3 ,0.05,R "]).
  - exact ascii_digit_not_space.
  - vm_compute. reflexivity.
  - repeat constructor; intros c [= <-]; done.
Defined.

Lemma parse_tokens_witness :
  parse_line_to_fields ascii_digit
    (py " " ++
     (py "V1" ++
      flat [(py "   ", py "2459000.5"); (py " ", py "12.3"); (py "  ", py "0.05");
            (py " ", py "R"); (py " ", py "note")]) ++
     [newline])
  = Some {[NAME := py "V1"; HJD := py "2459000.5"; MAG := py "12.3";
           MAG_ERR := py "0.05"; FILTER := py "R"]}.
Proof.
  apply (parse_tokens ascii_digit (py " ") [newline] (py "V1")
           (py "   ") (py "2459000.5") (py " ") (py "12.3") (py "  ") (py "0.05")
           (py " ") (py "R") [(py " ", py "note")]);
    try reflexivity; decide_it.
Defined.

Lemma table_line_reparses_witness :
  ∃ header lines line,
    format_lines
      [{[NAME := py "V1"; HJD := py "2459000.5"; MAG := py "12.3";
         MAG_ERR := py "0.05"; FILTER := py "R"]}] ALL_COLUMNS
    = Some (header :: lines) ∧
    lines !! 0 = Some line ∧
    parse_line_to_fields ascii_digit line
    = Some {[NAME := py "V1"; HJD := py "2459000.5"; MAG := py "12.3";
             MAG_ERR := py "0.05"; FILTER := py "R"]}.
Proof.
  apply (table_line_reparses ascii_digit
           [{[NAME := py "V1"; HJD := py "2459000.5"; MAG := py "12.3";
              MAG_ERR := py "0.05"; FILTER := py "R"]}] 0).
  - reflexivity.
  - decide_it.
  - reflexivity.
Defined.

Lemma default_filename_no_space_witness :
  space ∉ _default_filename sample_world sample_window
            (PyStr.strip (input_edit sample_window)).
Proof.
  apply (default_filename_no_space sample_world sample_window
           (PyStr.strip (input_edit sample_window))).
  decide_it.
Defined.

Lemma extracted_table_line_count_witness :
  ∃ out,
    format_table
      [{[NAME := py "V1"; HJD := py "2459000.5"; MAG := py "12.3";
         MAG_ERR := py "0.05"; FILTER := py "R"]};
       {[NAME := []; HJD := py "2459001.5"; MAG := py "12.4";
         MAG_ERR := py "0.06"; FILTER := []]}]
      DEFAULT_COLUMNS = Some out ∧
    length (PyStr.split newline out) = 3.
Proof.
  apply (extracted_table_line_count ascii_digit
           [py "# log" ++ [newline];
            py "V1,2459000.5,12.3,0.05,R" ++ [newline];
            [newline];
            py "x 2459001.5 12.4 0.06" ++ [newline]]).
  - vm_compute. reflexivity.
  - decide_it.
  - decide_it.
Defined.

Lemma parse_fallback_values_witness :
  ∃ d, parse_line_to_fields ascii_digit (py "x 2459001.5 -12.4 6e-2") = Some d ∧
    d !! NAME = Some [] ∧ d !! FILTER = Some [] ∧
    ∀ k, k ∈ DEFAULT_COLUMNS →
      ∃ v, d !! k = Some v ∧
        (∃ c, c ∈ v ∧ ascii_digit c = true) ∧
        Forall (λ c, ascii_digit c = true ∨ c ∈ py "+-.eE") v.
Proof.
  apply (parse_fallback_values ascii_digit (py "x 2459001.5 -12.4 6e-2")).
  - vm_compute. discriminate.
  - reflexivity.
  - vm_compute. lia.
  - vm_compute. lia.
  - vm_compute. lia.
Defined.

Example filename_scenario :
  _default_filename sample_world sample_window
    (PyStr.strip (input_edit sample_window))
  = py "MY_LOG_20261103_MPC.txt".
Proof. vm_compute. reflexivity. Qed.

Example on_extract_scenario :
  on_extract ascii_digit sample_world sample_window
  = saved (py "/home/user/Desktop/MY_LOG_20261103_MPC.txt")
      (py "HJD         MAG    MAG_ERR   " ++ newline ::
       py "2459000.5   12.3   0.05      ").
Proof. vm_compute. reflexivity. Qed.
